(** * Poly: a dense integer polynomial (poly.h / poly.cpp)

    A shallow embedding of the class [Poly] and a verification of its
    documented behaviour.  A [Poly] owns a heap array [coeffList] of [int]
    and an [int] field [size]; element [i] of the array is the coefficient
    of [x^i].

    Conventions of the embedding:
    - an [int] is a [Z]; every [+], [-] and [*] that the source performs on
      [int]s is written with the 32-bit two's-complement wrap-around
      ([Int.add], [Int.sub], [Int.mul]);
    - an array is a [list Z]; [a[i]] is [rd a i] and [a[i] = v] is
      [wr a i v], both of which fail outside the bounds of the array;
    - [new int[n]] yields storage that has not been initialised: its
      content is whatever the parameter [fresh] says, and it fails when
      [n] is negative;
    - a member function is a function in the option monad: [None] is a run
      that leaves defined behaviour or the precondition of the function (an
      access outside an array, a failed allocation, an extraction from an
      input stream that fails). *)

From stdpp Require Import base option list strings pretty gmap.

Open Scope Z_scope.

(** ** The type [int] *)

Module Int.

Definition INT_MAX : Z := 2147483647.
Definition INT_MIN : Z := -2147483648.

(** Reduction of a mathematical integer to the 32-bit signed range. *)
Definition wrap (z : Z) : Z :=
  (z + 2147483648) `mod` 4294967296 - 2147483648.

Definition add (a b : Z) : Z := wrap (a + b).
Definition sub (a b : Z) : Z := wrap (a - b).
Definition mul (a b : Z) : Z := wrap (a * b).

Definition in_range (z : Z) : Prop := INT_MIN <= z <= INT_MAX.

End Int.

#[global] Instance in_range_dec (z : Z) : Decision (Int.in_range z).
Proof. unfold Int.in_range. apply _. Defined.

(** ** Arrays *)

(** [a[i]] as an rvalue. *)
Definition rd (a : list Z) (i : Z) : option Z :=
  if decide (0 <= i) then a !! Z.to_nat i else None.

(** [a[i] = v]. *)
Definition wr (a : list Z) (i v : Z) : option (list Z) :=
  if decide (0 <= i < Z.of_nat (length a))
  then Some (<[Z.to_nat i := v]> a) else None.

(** ** Loops *)

(** [n] iterations of [body], the counter starting at [i] and moving by
    [step] after each of them. *)
Fixpoint for_loop {St : Type} (n : nat) (i step : Z)
    (body : Z -> St -> option St) (s : St) : option St :=
  match n with
  | O => Some s
  | S n' => s' ← body i s; for_loop n' (i + step) step body s'
  end.

(** [for (int i = lo; i < hi; ++i) body].  The counter stays below [hi],
    itself an [int], so [++i] never wraps. *)
Definition for_up {St : Type} (lo hi : Z) (body : Z -> St -> option St) (s : St)
    : option St :=
  for_loop (Z.to_nat (hi - lo)) lo 1 body s.

(** [for (int i = hi; i >= 0; --i) body]. *)
Definition for_down {St : Type} (hi : Z) (body : Z -> St -> option St) (s : St)
    : option St :=
  for_loop (Z.to_nat (hi + 1)) hi (-1) body s.

(** [while (cond) body], with a bound on the number of iterations; running
    out of [fuel] while [cond] still holds is a failure. *)
Fixpoint while {St : Type} (fuel : nat) (cond : St -> bool)
    (body : St -> option St) (s : St) : option St :=
  if cond s then
    match fuel with
    | O => None
    | S fuel' => s' ← body s; while fuel' cond body s'
    end
  else Some s.

(** ** The class *)

Record Poly : Type := mkPoly { coeffList : list Z; size : Z }.

Section Heap.

(** What freshly allocated storage happens to hold, cell by cell. *)
Context (fresh : nat -> Z).

(** [new int[n]]. *)
Definition new_int (n : Z) : option (list Z) :=
  if decide (0 <= n) then Some (fresh <$> seq 0 (Z.to_nat n)) else None.

(** [Poly::Poly()] *)
Definition Poly_default : option Poly :=
  let size := 1 in
  buf ← new_int size;
  buf ← wr buf 0 0;
  Some (mkPoly buf size).

(** [Poly::Poly(int coeff)] *)
Definition Poly_coeff (coeff : Z) : option Poly :=
  let size := 1 in
  buf ← new_int size;
  buf ← wr buf 0 coeff;
  Some (mkPoly buf size).

(** [Poly::Poly(int coeff, int exp)] *)
Definition Poly_coeff_exp (coeff exp : Z) : option Poly :=
  let size :=
    if decide (exp < 0) then Int.add (Int.mul exp (-1)) 1
    else Int.add exp 1 in
  buf ← new_int size;
  buf ← for_up 0 (Int.sub size 1) (fun i b => wr b i 0) buf;
  buf ← wr buf (Int.sub size 1) coeff;
  Some (mkPoly buf size).

(** [Poly::Poly(const Poly& orig)] *)
Definition Poly_copy (orig : Poly) : option Poly :=
  let size := size orig in
  buf ← new_int size;
  buf ← for_up 0 size
           (fun i b => v ← rd (coeffList orig) i; wr b i v) buf;
  Some (mkPoly buf size).

(** [int Poly::getCoeff(int exp) const] *)
Definition getCoeff (this : Poly) (exp : Z) : option Z :=
  if decide (exp >= size this \/ exp < 0) then Some 0
  else rd (coeffList this) exp.

(** [void Poly::setCoeff(int coeff, int exp)]; the result is the object
    after the call. *)
Definition setCoeff (this : Poly) (coeff exp : Z) : option Poly :=
  let index := if decide (exp < 0) then Int.mul exp (-1) else exp in
  this ←
    (if decide (index >= size this) then
       temp ← new_int (Int.add index 1);
       temp ← for_up 0 (size this)
                (fun i t => v ← rd (coeffList this) i; wr t i v) temp;
       (* delete [] coeffList; coeffList = temp; *)
       this ← while (Z.to_nat (index - size this))
                (fun p => bool_decide (size p < index))
                (fun p => b ← wr (coeffList p) (size p) 0;
                          Some (mkPoly b (Int.add (size p) 1)))
                (mkPoly temp (size this));
       Some (mkPoly (coeffList this) (Int.add (size this) 1))
     else Some this);
  buf ← wr (coeffList this) index coeff;
  Some (mkPoly buf (size this)).

(** [Poly Poly::operator+(const Poly& rhs) const] *)
Definition operator_add (this rhs : Poly) : option Poly :=
  if decide (size this > size rhs) then
    sum ← Poly_copy this;
    buf ← for_up 0 (size rhs)
             (fun i b => x ← rd b i; y ← rd (coeffList rhs) i;
                         wr b i (Int.add x y)) (coeffList sum);
    Some (mkPoly buf (size sum))
  else
    sum ← Poly_copy rhs;
    buf ← for_up 0 (size this)
             (fun i b => x ← rd b i; y ← rd (coeffList this) i;
                         wr b i (Int.add x y)) (coeffList sum);
    Some (mkPoly buf (size sum)).

(** [Poly Poly::operator-(const Poly& rhs) const] *)
Definition operator_sub (this rhs : Poly) : option Poly :=
  diff ← Poly_copy this;
  diff ← (if decide (size this < size rhs)
          then setCoeff diff 0 (Int.sub (size rhs) 1) else Some diff);
  buf ← for_up 0 (size rhs)
           (fun i b => x ← rd b i; y ← rd (coeffList rhs) i;
                       wr b i (Int.sub x y)) (coeffList diff);
  Some (mkPoly buf (size diff)).

(** The doubly nested loop shared by [operator*] and [operator*=]:
    [prod[i + j] += a[i] * b[j]] for [i < n] and [j < m]. *)
Definition convolve (a : list Z) (n : Z) (b : list Z) (m : Z)
    (prod : list Z) : option (list Z) :=
  for_up 0 n (fun i prod =>
    for_up 0 m (fun j prod =>
      acc ← rd prod (Int.add i j);
      x ← rd a i;
      y ← rd b j;
      wr prod (Int.add i j) (Int.add acc (Int.mul x y))) prod) prod.

(** [Poly Poly::operator*(const Poly& rhs) const] *)
Definition operator_mul (this rhs : Poly) : option Poly :=
  prod ← Poly_default;
  prod ← setCoeff prod 0 (Int.sub (Int.add (size this) (size rhs)) 2);
  buf ← convolve (coeffList this) (size this)
                 (coeffList rhs) (size rhs) (coeffList prod);
  Some (mkPoly buf (size prod)).

(** The body of [Poly& Poly::operator=(const Poly& rhs)] under its guard
    [this != &rhs]. *)
Definition assign_from (this rhs : Poly) : option Poly :=
  (* delete [] coeffList; *)
  let size := size rhs in
  buf ← new_int size;
  buf ← for_up 0 size
           (fun i b => v ← rd (coeffList rhs) i; wr b i v) buf;
  Some (mkPoly buf size).

(** [Poly& Poly::operator+=(const Poly& rhs)] *)
Definition operator_add_assign (this rhs : Poly) : option Poly :=
  this ← (if decide (size this < size rhs)
          then setCoeff this 0 (Int.sub (size rhs) 1) else Some this);
  buf ← for_up 0 (size this)
           (fun i b => x ← rd b i; y ← rd (coeffList rhs) i;
                       wr b i (Int.add x y)) (coeffList this);
  Some (mkPoly buf (size this)).

(** [Poly& Poly::operator-=(const Poly& rhs)] *)
Definition operator_sub_assign (this rhs : Poly) : option Poly :=
  this ← (if decide (size this < size rhs)
          then setCoeff this 0 (Int.sub (size rhs) 1) else Some this);
  buf ← for_up 0 (size this)
           (fun i b => x ← rd b i; y ← rd (coeffList rhs) i;
                       wr b i (Int.sub x y)) (coeffList this);
  Some (mkPoly buf (size this)).

(** [Poly& Poly::operator*=(const Poly& rhs)].  The accumulator is used
    as [new] returns it, and [size] is not assigned. *)
Definition operator_mul_assign (this rhs : Poly) : option Poly :=
  prod ← new_int (Int.sub (Int.add (size this) (size rhs)) 1);
  prod ← convolve (coeffList this) (size this)
                  (coeffList rhs) (size rhs) prod;
  (* delete [] coeffList; coeffList = prod; *)
  Some (mkPoly prod (size this)).

(** [bool Poly::compare(const Poly& smaller, const Poly& larger) const]
    is two loops over one counter, each of which may return [false].
    [scan] is one such loop, [while (i < bound) { if (!test(i)) return
    false; ++i; }]: it yields [inl false] when it returns and [inr i],
    the counter, when it falls through. *)
Fixpoint scan (fuel : nat) (bound : Z) (test : Z -> option bool) (i : Z)
    : option (bool + Z) :=
  if decide (i < bound) then
    match fuel with
    | O => None
    | S fuel' =>
        ok ← test i;
        if ok : bool then scan fuel' bound test (i + 1)
        else Some (inl false)
    end
  else Some (inr i).

Definition compare (smaller larger : Poly) : option bool :=
  let i := 0 in
  r ← scan (Z.to_nat (size smaller - i)) (size smaller)
        (fun i => x ← rd (coeffList smaller) i;
                  y ← rd (coeffList larger) i;
                  Some (bool_decide (x = y))) i;
  match r with
  | inl b => Some b
  | inr i =>
      r ← scan (Z.to_nat (size larger - i)) (size larger)
            (fun i => y ← rd (coeffList larger) i;
                      Some (bool_decide (y = 0))) i;
      match r with
      | inl b => Some b
      | inr _ => Some true
      end
  end.

(** [bool Poly::operator==(const Poly& rhs) const] *)
Definition operator_eq (this rhs : Poly) : option bool :=
  if decide (size this > size rhs) then compare rhs this
  else compare this rhs.

(** [bool Poly::operator!=(const Poly& rhs) const] *)
Definition operator_ne (this rhs : Poly) : option bool :=
  negb <$> operator_eq this rhs.

(** *** Objects and references

    [operator=] compares the address of its argument with [this], so it
    is modelled over a store of objects: [this] and [rhs] are addresses,
    and the result is the store after the call. *)
Definition operator_assign (this rhs : nat) (objs : gmap nat Poly)
    : option (gmap nat Poly) :=
  self ← objs !! this;
  if decide (this ≠ rhs) then
    other ← objs !! rhs;
    self ← assign_from self other;
    Some (<[this := self]> objs)
  else Some objs.

(** *** Streams

    An [ostream&] names a stream; [cout] is the one [<iostream>]
    declares.  The state of the output side of the program is the text
    that each stream has received. *)
Inductive ostream : Type := cout | ostream_at (addr : nat).

#[global] Instance ostream_eq_dec : EqDecision ostream.
Proof. solve_decision. Defined.

Definition put (o : ostream) (text : string) (w : ostream -> string)
    : ostream -> string :=
  fun o' => if decide (o' = o) then w o' +:+ text else w o'.

(** [ostream& operator<<(ostream& output, const Poly& source)]: the
    stream returned and the state of the streams after the call. *)
Definition operator_out (output : ostream) (source : Poly)
    (w : ostream -> string) : option (ostream * (ostream -> string)) :=
  let nonzero := false in
  '(nonzero, w) ←
    for_down (Int.sub (size source) 1)
      (fun i '(nonzero, w) =>
         c ← rd (coeffList source) i;
         if decide (c ≠ 0) then
           let nonzero := true in
           let w := put cout " " w in
           let w := if decide (c > 0) then put cout "+" w else w in
           let w := put cout (pretty c) w in
           let w := if decide (i > 0) then put cout "x" w else w in
           let w := if decide (i > 1)
                    then put cout (pretty i) (put cout "^" w) else w in
           Some (nonzero, w)
         else Some (nonzero, w))
      (nonzero, w);
  let w := if nonzero : bool then w else put cout " 0" w in
  Some (output, w).

(** An [istream] holding whitespace-separated integers is the list of
    those integers, each of any magnitude.  [input >> coeff >> exp] takes
    the next two of them into two [int]s, [coeff] first.  The extraction
    fails when the stream has come to its end or when the integer it
    meets is not an [int]: the source then sets failbit, later extractions
    do nothing, and [operator>>], which tests neither, goes on with a pair
    that the stream did not hold.  Its precondition excludes such a
    stream; [extract2] gives no result on it. *)
Definition extract2 (input : list Z) : option (Z * Z * list Z) :=
  match input with
  | coeff :: exp :: rest =>
      if decide (Int.in_range coeff) then
        if decide (Int.in_range exp) then Some (coeff, exp, rest)
        else None
      else None
  | _ => None
  end.

(** The loop of [operator>>]: [while (coeff != 0 || exp != 0)]. *)
Fixpoint read_terms (fuel : nat) (coeff exp : Z) (input : list Z)
    (target : Poly) : option (list Z * Poly) :=
  if decide (coeff ≠ 0 \/ exp ≠ 0) then
    match fuel with
    | O => None
    | S fuel' =>
        target ← setCoeff target coeff exp;
        '(coeff, exp, input) ← extract2 input;
        read_terms fuel' coeff exp input target
    end
  else Some (input, target).

(** [istream& operator>>(istream& input, Poly& target)]: what is left of
    the stream, and the target after the call. *)
Definition operator_in (input : list Z) (target : Poly)
    : option (list Z * Poly) :=
  '(coeff, exp, input) ← extract2 input;
  buf ← for_up 0 (size target) (fun i b => wr b i 0) (coeffList target);
  read_terms (length input) coeff exp input (mkPoly buf (size target)).

End Heap.

(** ** Vocabulary of the specification *)

(** The state of an object of the class that its member functions
    maintain: [size] is a positive [int] and the array has at least [size]
    cells.  (After [operator*=] the array may have more.) *)
Definition valid (p : Poly) : Prop :=
  1 <= size p <= Int.INT_MAX /\ size p <= Z.of_nat (length (coeffList p)).

(** The coefficient stored for exponent [i]. *)
Definition coef (a : list Z) (i : nat) : Z := default 0 (a !! i).

(** [f 0 + ... + f (n - 1)]. *)
Fixpoint Zsum (n : nat) (f : nat -> Z) : Z :=
  match n with
  | O => 0
  | S n' => Zsum n' f + f n'
  end.

(** The sum over all [i < n] and [j < m] with [i + j = k] of
    [a[i] * b[j]]. *)
Definition conv_term (a b : list Z) (k i j : nat) : Z :=
  if decide (i + j = k)%nat then coef a i * coef b j else 0.

Definition conv (a : list Z) (n : nat) (b : list Z) (m : nat) (k : nat) : Z :=
  Zsum n (fun i => Zsum m (fun j => conv_term a b k i j)).

(** The coefficient of [x^k] in a sum: the sum of the two coefficients in
    [int] arithmetic where both operands have one, and the coefficient of
    the longer operand elsewhere. *)
Definition sum_cell (p q : Poly) (k : nat) : Z :=
  if decide (Z.of_nat k < size p /\ Z.of_nat k < size q)
  then Int.add (coef (coeffList p) k) (coef (coeffList q) k)
  else if decide (Z.of_nat k < size p) then coef (coeffList p) k
  else coef (coeffList q) k.

(** Two polynomials denote the same polynomial: every coefficient of
    [smaller] equals the coefficient of [larger] at the same exponent, and
    every coefficient of [larger] from the size of [smaller] on is zero. *)
Definition agree (smaller larger : Poly) : Prop :=
  (forall k : nat, Z.of_nat k < size smaller ->
     coeffList smaller !! k = coeffList larger !! k) /\
  (forall k : nat, size smaller <= Z.of_nat k < size larger ->
     coeffList larger !! k = Some 0).

(** A list of coefficient/exponent pairs as the integers of a stream. *)
Fixpoint tokens (terms : list (Z * Z)) : list Z :=
  match terms with
  | [] => []
  | (coeff, exp) :: terms' => coeff :: exp :: tokens terms'
  end.

(** [setCoeff] applied to each pair of a list, in order. *)
Fixpoint apply_terms (fresh : nat -> Z) (terms : list (Z * Z)) (p : Poly)
    : option Poly :=
  match terms with
  | [] => Some p
  | (coeff, exp) :: terms' =>
      p' ← setCoeff fresh p coeff exp; apply_terms fresh terms' p'
  end.

(** A pair of [int]s that does not end the list read by [operator>>],
    with an exponent whose absolute value, plus one, is an [int]. *)
Definition term_ok (t : Z * Z) : Prop :=
  Int.in_range t.1 /\
  (t.1 ≠ 0 \/ t.2 ≠ 0) /\ Z.abs t.2 < Int.INT_MAX.

(** The objects that a program can obtain from the class: what the
    constructors build and what the member functions and operators return
    or leave behind, whenever they run to completion.  Arguments of type
    [int] are in the range of [int]; each allocation may find different
    content in the storage it gets. *)
Inductive produced : Poly -> Prop :=
  | produced_default fresh p :
      Poly_default fresh = Some p -> produced p
  | produced_coeff fresh c p :
      Int.in_range c -> Poly_coeff fresh c = Some p -> produced p
  | produced_coeff_exp fresh c e p :
      Int.in_range c -> Int.in_range e ->
      Poly_coeff_exp fresh c e = Some p -> produced p
  | produced_copy fresh q p :
      produced q -> Poly_copy fresh q = Some p -> produced p
  | produced_setCoeff fresh q c e p :
      produced q -> Int.in_range c -> Int.in_range e ->
      setCoeff fresh q c e = Some p -> produced p
  | produced_add fresh q r p :
      produced q -> produced r ->
      operator_add fresh q r = Some p -> produced p
  | produced_sub fresh q r p :
      produced q -> produced r ->
      operator_sub fresh q r = Some p -> produced p
  | produced_mul fresh q r p :
      produced q -> produced r ->
      operator_mul fresh q r = Some p -> produced p
  | produced_assign fresh (this rhs : nat) (objs objs' : gmap nat Poly) p :
      (forall a q, objs !! a = Some q -> produced q) ->
      operator_assign fresh this rhs objs = Some objs' ->
      objs' !! this = Some p -> produced p
  | produced_add_assign fresh q r p :
      produced q -> produced r ->
      operator_add_assign fresh q r = Some p -> produced p
  | produced_sub_assign fresh q r p :
      produced q -> produced r ->
      operator_sub_assign fresh q r = Some p -> produced p
  | produced_mul_assign fresh q r p :
      produced q -> produced r ->
      operator_mul_assign fresh q r = Some p -> produced p
  | produced_in fresh q input rest p :
      produced q -> Forall Int.in_range input ->
      operator_in fresh input q = Some (rest, p) -> produced p.

(** The text of the term [c x^i] for a coefficient [c] other than zero: a
    space, a [+] before a positive coefficient, the numeral, [x] from
    exponent 1 on, [^] and the exponent from exponent 2 on. *)
Definition term_text (c i : Z) : string :=
  " " +:+ (if decide (c > 0) then "+" else "")
      +:+ pretty c
      +:+ (if decide (i >= 1) then "x" else "")
      +:+ (if decide (i >= 2) then "^" +:+ pretty i else "").

(** The terms of the exponents below [n], highest first, those with a zero
    coefficient left out. *)
Fixpoint terms_text (a : list Z) (n : nat) : string :=
  match n with
  | O => ""
  | S n' =>
      (if decide (coef a n' = 0) then ""
       else term_text (coef a n') (Z.of_nat n'))
      +:+ terms_text a n'
  end.

(** The text of a polynomial: its terms, or [" 0"] when every coefficient
    is zero. *)
Definition format (p : Poly) : string :=
  if decide (Forall (fun c => c = 0) (take (Z.to_nat (size p)) (coeffList p)))
  then " 0"
  else terms_text (coeffList p) (Z.to_nat (size p)).

(** Sample content of storage that has not been initialised. *)
Definition junk (cell : nat) : Z := 77 + Z.of_nat cell.

(** The coefficient of [x^e] that an object stands for: the cell [e] when
    [e] is an exponent below the size, zero otherwise. *)
Definition coeff_of (p : Poly) (e : Z) : Z :=
  if decide (0 <= e < size p) then coef (coeffList p) (Z.to_nat e) else 0.

(** The coefficient of [x^k] in a difference: where the right operand has
    a coefficient, the difference in [int] arithmetic between the
    coefficient of the left operand, or zero when it has none, and that of
    the right operand; the coefficient of the left operand elsewhere. *)
Definition diff_cell (p q : Poly) (k : nat) : Z :=
  if decide (Z.of_nat k < size q)
  then Int.sub (if decide (Z.of_nat k < size p) then coef (coeffList p) k
                else 0)
               (coef (coeffList q) k)
  else coef (coeffList p) k.

(** The coefficient that a list of pairs assigns to exponent [k]: that of
    the last pair whose exponent has absolute value [k], zero when there is
    no such pair. *)
Definition last_coeff (terms : list (Z * Z)) (k : Z) : Z :=
  match last (filter (fun t : Z * Z => Z.abs t.2 = k) terms) with
  | Some t => t.1
  | None => 0
  end.

(** Every cell that the object uses holds an [int]. *)
Definition cells_in_range (p : Poly) : Prop :=
  forall k : nat, Z.of_nat k < size p -> Int.in_range (coef (coeffList p) k).

(** ** Arithmetic of [int] *)

Lemma wrap_small z : Int.in_range z -> Int.wrap z = z.
Proof.
  unfold Int.in_range, Int.INT_MIN, Int.INT_MAX, Int.wrap. intros Hz.
  rewrite Z.mod_small; lia.
Qed.

Lemma wrap_in_range z : Int.in_range (Int.wrap z).
Proof.
  unfold Int.in_range, Int.INT_MIN, Int.INT_MAX, Int.wrap.
  pose proof (Z.mod_pos_bound (z + 2147483648) 4294967296). lia.
Qed.

Lemma wrap_add_l a b : Int.wrap (Int.wrap a + b) = Int.wrap (a + b).
Proof.
  unfold Int.wrap. f_equal.
  replace ((a + 2147483648) `mod` 4294967296 - 2147483648 + b + 2147483648)
    with ((a + 2147483648) `mod` 4294967296 + b) by lia.
  rewrite Zplus_mod_idemp_l. f_equal. lia.
Qed.

Lemma wrap_add_r a b : Int.wrap (a + Int.wrap b) = Int.wrap (a + b).
Proof. rewrite (Z.add_comm a), wrap_add_l. f_equal. lia. Qed.

Lemma wrap_sub_l a b : Int.wrap (Int.wrap a - b) = Int.wrap (a - b).
Proof.
  replace (Int.wrap a - b) with (Int.wrap a + - b) by lia.
  by rewrite wrap_add_l.
Qed.

Lemma int_add_comm a b : Int.add a b = Int.add b a.
Proof. unfold Int.add. f_equal. lia. Qed.

(** The accumulation step of the convolution, on a cell that holds a
    reduced sum. *)
Lemma int_accumulate s x y :
  Int.add (Int.wrap s) (Int.mul x y) = Int.wrap (s + x * y).
Proof. unfold Int.add, Int.mul. by rewrite wrap_add_l, wrap_add_r. Qed.

(** ** Arrays *)

Lemma rd_lookup (a : list Z) (i : nat) : rd a (Z.of_nat i) = a !! i.
Proof. unfold rd. rewrite decide_True by lia. by rewrite Nat2Z.id. Qed.

Lemma rd_Some (a : list Z) (i v : Z) :
  rd a i = Some v <-> 0 <= i /\ a !! Z.to_nat i = Some v.
Proof. unfold rd. case_decide; [tauto|]. split; [done | tauto]. Qed.

Lemma rd_in_bounds (a : list Z) (i : Z) :
  0 <= i < Z.of_nat (length a) -> is_Some (rd a i).
Proof.
  intros Hi. unfold rd. rewrite decide_True by lia.
  apply lookup_lt_is_Some. lia.
Qed.

Lemma wr_in_bounds (a : list Z) (i v : Z) :
  0 <= i < Z.of_nat (length a) -> wr a i v = Some (<[Z.to_nat i := v]> a).
Proof. intros Hi. unfold wr. by rewrite decide_True. Qed.

Lemma wr_nat (a : list Z) (i : nat) (v : Z) :
  (i < length a)%nat -> wr a (Z.of_nat i) v = Some (<[i := v]> a).
Proof. intros Hi. rewrite wr_in_bounds by lia. by rewrite Nat2Z.id. Qed.

(** ** Loops *)

(** The rule for counted loops: an invariant indexed by the number of
    iterations done. *)
Lemma for_loop_inv {St : Type} (Inv : nat -> St -> Prop) n i step body s :
  Inv 0%nat s ->
  (forall (j : nat) t, (j < n)%nat -> Inv j t ->
     exists t', body (i + Z.of_nat j * step) t = Some t' /\ Inv (S j) t') ->
  exists s', for_loop n i step body s = Some s' /\ Inv n s'.
Proof.
  revert Inv i s. induction n as [|n IH]; intros Inv i s H0 Hstep.
  - exists s. by split.
  - destruct (Hstep 0%nat s) as (s1 & Hb & H1); [lia | done |].
    replace (i + Z.of_nat 0 * step) with i in Hb by lia.
    destruct (IH (fun j => Inv (S j)) (i + step) s1) as (s' & Hl & Hn).
    + done.
    + intros j t Hj Ht.
      destruct (Hstep (S j) t) as (t' & Hb' & Ht'); [lia | done |].
      exists t'. split; [|done].
      rewrite <- Hb'. f_equal. lia.
    + exists s'. split; [|done]. simpl. by rewrite Hb.
Qed.

Lemma for_up_inv {St : Type} (Inv : nat -> St -> Prop) (n : nat) lo hi body s :
  Z.to_nat (hi - lo) = n ->
  Inv 0%nat s ->
  (forall (j : nat) t, (j < n)%nat -> Inv j t ->
     exists t', body (lo + Z.of_nat j) t = Some t' /\ Inv (S j) t') ->
  exists s', for_up lo hi body s = Some s' /\ Inv n s'.
Proof.
  intros <- H0 Hstep. unfold for_up. apply for_loop_inv; [done|].
  intros j t Hj Ht. destruct (Hstep j t Hj Ht) as (t' & Hb & Ht').
  exists t'. split; [|done]. rewrite <- Hb. f_equal. lia.
Qed.

(** A counted loop whose [j]th iteration rewrites cell [off + j] of an
    array from the old content of that cell. *)
Lemma for_up_cells (f : Z -> Z -> option Z) (body : Z -> list Z -> option (list Z))
    (off lo hi : Z) (buf : list Z) :
  0 <= off -> 0 <= lo -> off + hi <= Z.of_nat (length buf) ->
  (forall j b x, lo <= j < hi -> b !! Z.to_nat (off + j) = Some x ->
     body j b = v ← f j x; Some (<[Z.to_nat (off + j) := v]> b)) ->
  (forall j x, lo <= j < hi -> buf !! Z.to_nat (off + j) = Some x ->
     is_Some (f j x)) ->
  exists buf',
    for_up lo hi body buf = Some buf' /\
    length buf' = length buf /\
    forall k : nat,
      buf' !! k =
        if decide (off + lo <= Z.of_nat k < off + hi)
        then x ← buf !! k; f (Z.of_nat k - off) x
        else buf !! k.
Proof.
  intros Hoff Hlo Hhi Hbody Hf.
  destruct (for_up_inv
    (fun c b =>
       length b = length buf /\
       forall k : nat,
         b !! k =
           if decide (off + lo <= Z.of_nat k < off + lo + Z.of_nat c)
           then x ← buf !! k; f (Z.of_nat k - off) x
           else buf !! k)
    (Z.to_nat (hi - lo)) lo hi body buf) as (buf' & Hrun & Hlen & Hcells).
  - done.
  - split; [done|]. intros k. by rewrite decide_False by lia.
  - intros j b Hj [Hlen Hcells].
    set (K := Z.to_nat (off + (lo + Z.of_nat j))).
    assert (HK : (K < length buf)%nat) by lia.
    destruct (lookup_lt_is_Some_2 buf K HK) as [x Hx].
    assert (Hbx : b !! K = Some x).
    { rewrite Hcells. by rewrite decide_False by lia. }
    destruct (Hf (lo + Z.of_nat j) x) as [v Hv]; [lia | done |].
    exists (<[K := v]> b). split.
    { rewrite (Hbody _ _ x) by (done || lia). by rewrite Hv. }
    split; [by rewrite length_insert|].
    intros k. destruct (decide (k = K)) as [->|Hne].
    + rewrite list_lookup_insert_eq by lia.
      rewrite decide_True by lia. rewrite Hx. simpl.
      rewrite <- Hv. f_equal. lia.
    + rewrite list_lookup_insert_ne by done. rewrite Hcells.
      destruct (decide (off + lo <= Z.of_nat k < off + lo + Z.of_nat j)).
      * by rewrite decide_True by lia.
      * by rewrite decide_False by lia.
  - exists buf'. split; [done|]. split; [done|].
    intros k. rewrite Hcells.
    destruct (decide (off + lo <= Z.of_nat k < off + hi)).
    + by rewrite decide_True by lia.
    + by rewrite decide_False by lia.
Qed.

(** The three loop bodies of the class that fit [for_up_cells]. *)
Lemma for_up_fill (v : Z) (lo hi : Z) (buf : list Z) :
  0 <= lo -> hi <= Z.of_nat (length buf) ->
  exists buf',
    for_up lo hi (fun i b => wr b i v) buf = Some buf' /\
    length buf' = length buf /\
    forall k : nat,
      buf' !! k =
        if decide (lo <= Z.of_nat k < hi) then Some v else buf !! k.
Proof.
  intros Hlo Hhi.
  destruct (for_up_cells (fun _ _ => Some v) (fun i b => wr b i v) 0 lo hi buf)
    as (buf' & Hrun & Hlen & Hcells); try done.
  - intros j b x Hj Hx. simpl. apply lookup_lt_Some in Hx.
    by rewrite wr_in_bounds by lia.
  - exists buf'. split; [done|]. split; [done|].
    intros k. rewrite Hcells. simpl.
    destruct (decide (lo <= Z.of_nat k < hi)) as [Hk|Hk].
    + rewrite decide_True by lia.
      destruct (lookup_lt_is_Some_2 buf k) as [x ->]; [lia | done].
    + by rewrite decide_False by lia.
Qed.

Lemma for_up_copy (src : list Z) (n : Z) (buf : list Z) :
  n <= Z.of_nat (length src) -> n <= Z.of_nat (length buf) ->
  exists buf',
    for_up 0 n (fun i b => v ← rd src i; wr b i v) buf = Some buf' /\
    length buf' = length buf /\
    forall k : nat,
      buf' !! k = if decide (Z.of_nat k < n) then src !! k else buf !! k.
Proof.
  intros Hsrc Hbuf.
  destruct (for_up_cells (fun j _ => rd src j)
              (fun i b => v ← rd src i; wr b i v) 0 0 n buf)
    as (buf' & Hrun & Hlen & Hcells); try done.
  - intros j b x Hj Hx. simpl. apply lookup_lt_Some in Hx.
    destruct (rd src j); simpl; [|done]. by rewrite wr_in_bounds by lia.
  - intros j x Hj _. apply rd_in_bounds. lia.
  - exists buf'. split; [done|]. split; [done|].
    intros k. rewrite Hcells. simpl.
    destruct (decide (Z.of_nat k < n)) as [Hk|Hk].
    + rewrite decide_True by lia.
      destruct (lookup_lt_is_Some_2 buf k) as [x ->]; [lia|]. simpl.
      rewrite Z.sub_0_r. apply rd_lookup.
    + by rewrite decide_False by lia.
Qed.

Lemma for_up_combine (op : Z -> Z -> Z) (src : list Z) (n : Z) (buf : list Z) :
  n <= Z.of_nat (length src) -> n <= Z.of_nat (length buf) ->
  exists buf',
    for_up 0 n (fun i b => x ← rd b i; y ← rd src i; wr b i (op x y)) buf
      = Some buf' /\
    length buf' = length buf /\
    forall k : nat,
      buf' !! k =
        if decide (Z.of_nat k < n)
        then x ← buf !! k; y ← src !! k; Some (op x y)
        else buf !! k.
Proof.
  intros Hsrc Hbuf.
  destruct (for_up_cells (fun j x => y ← rd src j; Some (op x y))
              (fun i b => x ← rd b i; y ← rd src i; wr b i (op x y)) 0 0 n buf)
    as (buf' & Hrun & Hlen & Hcells); try done.
  - intros j b x Hj Hx. simpl in *.
    assert (rd b j = Some x) as -> by (apply rd_Some; split; [lia | done]).
    simpl. apply lookup_lt_Some in Hx.
    destruct (rd src j); simpl; [|done]. by rewrite wr_in_bounds by lia.
  - intros j x Hj _. destruct (rd_in_bounds src j) as [y ->]; [lia|]. by eexists.
  - exists buf'. split; [done|]. split; [done|].
    intros k. rewrite Hcells. simpl.
    destruct (decide (Z.of_nat k < n)) as [Hk|Hk].
    + rewrite decide_True by lia.
      destruct (buf !! k); simpl; [|done].
      by rewrite Z.sub_0_r, rd_lookup.
    + by rewrite decide_False by lia.
Qed.

(** ** Allocation *)

Lemma new_int_Some fresh (n : Z) :
  0 <= n ->
  exists buf, new_int fresh n = Some buf /\ length buf = Z.to_nat n.
Proof.
  intros Hn. unfold new_int. rewrite decide_True by done.
  eexists. split; [done|]. by rewrite length_fmap, length_seq.
Qed.

(** ** [setCoeff] *)

(** The loop [while (size < index) coeffList[size++] = 0;]. *)
Lemma zero_fill_while (index : Z) (fuel : nat) (buf : list Z) (sz : Z) :
  0 <= sz -> index <= Z.of_nat (length buf) -> index <= Int.INT_MAX ->
  fuel = Z.to_nat (index - sz) ->
  exists buf',
    while fuel (fun p => bool_decide (size p < index))
      (fun p => b ← wr (coeffList p) (size p) 0;
                Some (mkPoly b (Int.add (size p) 1)))
      (mkPoly buf sz) = Some (mkPoly buf' (Z.max sz index)) /\
    length buf' = length buf /\
    forall k : nat,
      buf' !! k =
        if decide (sz <= Z.of_nat k < index) then Some 0 else buf !! k.
Proof.
  intros Hsz Hlen Hmax. revert buf sz Hsz Hlen.
  induction fuel as [|fuel IH]; intros buf sz Hsz Hlen Hfuel.
  - exists buf. simpl. rewrite bool_decide_eq_false_2 by lia.
    split; [f_equal; f_equal; lia|]. split; [done|].
    intros k. by rewrite decide_False by lia.
  - simpl. rewrite bool_decide_eq_true_2 by lia.
    rewrite wr_in_bounds by lia. simpl.
    assert (Int.add sz 1 = sz + 1) as ->.
    { apply wrap_small. unfold Int.in_range, Int.INT_MIN, Int.INT_MAX in *. lia. }
    destruct (IH (<[Z.to_nat sz := 0]> buf) (sz + 1))
      as (buf' & Hrun & Hlen' & Hcells).
    + lia.
    + by rewrite length_insert.
    + lia.
    + exists buf'. split; [rewrite Hrun; f_equal; f_equal; lia|].
      split; [by rewrite Hlen', length_insert|].
      intros k. rewrite Hcells.
      destruct (decide (k = Z.to_nat sz)) as [->|Hne].
      * rewrite decide_False by lia. rewrite decide_True by lia.
        apply list_lookup_insert_eq. lia.
      * rewrite list_lookup_insert_ne by done.
        destruct (decide (sz + 1 <= Z.of_nat k < index)).
        -- by rewrite decide_True by lia.
        -- by rewrite decide_False by lia.
Qed.

(** The index that [setCoeff] computes from its argument. *)
Lemma setCoeff_index (exp : Z) :
  Z.abs exp <= Int.INT_MAX ->
  (if decide (exp < 0) then Int.mul exp (-1) else exp) = Z.abs exp.
Proof.
  intros He. case_decide; [|lia].
  unfold Int.mul. rewrite wrap_small; [lia|].
  unfold Int.in_range, Int.INT_MIN, Int.INT_MAX in *. lia.
Qed.

Lemma setCoeff_inplace fresh (p : Poly) (c e : Z) :
  valid p -> Z.abs e < size p ->
  setCoeff fresh p c e
    = Some (mkPoly (<[Z.to_nat (Z.abs e) := c]> (coeffList p)) (size p)).
Proof.
  intros [Hsz Hlen] He. unfold setCoeff.
  rewrite setCoeff_index by lia.
  rewrite decide_False by lia. simpl.
  by rewrite wr_in_bounds by lia.
Qed.

Lemma setCoeff_grow fresh (p : Poly) (c e : Z) :
  valid p -> size p <= Z.abs e < Int.INT_MAX ->
  exists buf,
    setCoeff fresh p c e = Some (mkPoly buf (Z.abs e + 1)) /\
    length buf = Z.to_nat (Z.abs e + 1) /\
    forall k : nat,
      buf !! k =
        if decide (Z.of_nat k < size p) then coeffList p !! k
        else if decide (Z.of_nat k < Z.abs e) then Some 0
        else if decide (Z.of_nat k = Z.abs e) then Some c
        else None.
Proof.
  intros [Hsz Hlen] He. unfold setCoeff.
  rewrite setCoeff_index by lia.
  rewrite decide_True by lia.
  assert (Int.add (Z.abs e) 1 = Z.abs e + 1) as Hnext.
  { apply wrap_small. unfold Int.in_range, Int.INT_MIN, Int.INT_MAX in *. lia. }
  rewrite Hnext.
  destruct (new_int_Some fresh (Z.abs e + 1)) as (t0 & -> & Hl0); [lia|].
  simpl.
  destruct (for_up_copy (coeffList p) (size p) t0)
    as (t1 & -> & Hl1 & Hc1); [lia | lia |].
  simpl.
  destruct (zero_fill_while (Z.abs e) (Z.to_nat (Z.abs e - size p)) t1 (size p))
    as (t2 & -> & Hl2 & Hc2); [lia | lia | lia | done |].
  simpl. rewrite Z.max_r by lia. rewrite Hnext.
  rewrite wr_in_bounds by lia. simpl.
  eexists. split; [done|]. split; [rewrite length_insert; lia|].
  intros k. destruct (decide (k = Z.to_nat (Z.abs e))) as [->|Hne].
  - rewrite list_lookup_insert_eq by lia.
    rewrite decide_False by lia. rewrite decide_False by lia.
    by rewrite decide_True by lia.
  - rewrite list_lookup_insert_ne by done. rewrite Hc2, Hc1.
    destruct (decide (Z.of_nat k < size p)).
    + by rewrite decide_False by lia.
    + destruct (decide (Z.of_nat k < Z.abs e)).
      * by rewrite decide_True by lia.
      * rewrite decide_False by lia. rewrite decide_False by lia.
        apply lookup_ge_None. lia.
Qed.

Lemma setCoeff_valid fresh (p : Poly) (c e : Z) :
  valid p -> Z.abs e < Int.INT_MAX ->
  exists p', setCoeff fresh p c e = Some p' /\ valid p' /\
             size p' = Z.max (size p) (Z.abs e + 1).
Proof.
  intros Hp He. destruct (decide (Z.abs e < size p)) as [Hin|Hout].
  - rewrite setCoeff_inplace by done. eexists. split; [done|].
    destruct Hp as [Hsz Hlen]. split.
    + split; simpl; [done|]. by rewrite length_insert.
    + simpl. lia.
  - destruct (setCoeff_grow fresh p c e) as (buf & -> & Hlen & _);
      [done | lia |].
    eexists. split; [done|]. destruct Hp as [Hsz _]. split.
    + split; simpl; lia.
    + simpl. lia.
Qed.

(** C5.  [setCoeff(c, e)] on a valid object, for an exponent [e] such that
    [|e| + 1] is an [int], runs to completion and stores [c] at exponent
    [|e|].  When [|e|] is not below the current size the array is replaced
    by one of [|e| + 1] cells whose first [size] cells are the old ones,
    whose cells from [size] up to [|e|] hold zero and whose last cell
    holds [c], and [size] becomes [|e| + 1]; otherwise the size, the length
    of the array and every other cell are unchanged. *)
Theorem setCoeff_sets_and_grows fresh (p : Poly) (c e : Z) :
  valid p -> Z.abs e < Int.INT_MAX ->
  exists p',
    setCoeff fresh p c e = Some p' /\
    getCoeff p' (Z.abs e) = Some c /\
    (size p <= Z.abs e ->
       size p' = Z.abs e + 1 /\
       Z.of_nat (length (coeffList p')) = Z.abs e + 1 /\
       (forall k : nat, Z.of_nat k < size p ->
          coeffList p' !! k = coeffList p !! k) /\
       (forall k : nat, size p <= Z.of_nat k < Z.abs e ->
          coeffList p' !! k = Some 0) /\
       coeffList p' !! Z.to_nat (Z.abs e) = Some c) /\
    (Z.abs e < size p ->
       size p' = size p /\
       length (coeffList p') = length (coeffList p) /\
       forall k : nat, k ≠ Z.to_nat (Z.abs e) ->
          coeffList p' !! k = coeffList p !! k).
Proof.
  intros Hp He. destruct (decide (Z.abs e < size p)) as [Hin|Hout].
  - rewrite setCoeff_inplace by done. eexists. split; [done|].
    destruct Hp as [Hsz Hlen]. split; [|split; [lia|]].
    + unfold getCoeff. simpl. rewrite decide_False by lia.
      apply rd_Some. split; [lia|]. apply list_lookup_insert_eq. lia.
    + intros _. simpl. split; [done|]. split; [by rewrite length_insert|].
      intros k Hk. by apply list_lookup_insert_ne.
  - destruct (setCoeff_grow fresh p c e) as (buf & -> & Hlen & Hcells);
      [done | lia |].
    assert (Hlast : buf !! Z.to_nat (Z.abs e) = Some c).
    { rewrite Hcells. rewrite decide_False by lia.
      rewrite decide_False by lia. by rewrite decide_True by lia. }
    eexists. split; [done|]. split; [|split; [|lia]].
    + unfold getCoeff. simpl. rewrite decide_False by lia.
      apply rd_Some. split; [lia | done].
    + intros _. simpl. split; [done|]. split; [lia|].
      split; [|split; [|done]].
      * intros k Hk. rewrite Hcells. by rewrite decide_True by lia.
      * intros k Hk. rewrite Hcells. rewrite decide_False by lia.
        by rewrite decide_True by lia.
Qed.

(** ** [getCoeff] *)

(** C8.  [getCoeff(e)] on a valid object returns a value for every [e]:
    zero when [e] is negative or not below the size, the stored
    coefficient otherwise.  It is a [const] member function: its only
    result is that value. *)
Theorem getCoeff_never_fails (p : Poly) (e : Z) :
  valid p ->
  exists v,
    getCoeff p e = Some v /\
    (e < 0 \/ e >= size p -> v = 0) /\
    (0 <= e < size p -> coeffList p !! Z.to_nat e = Some v).
Proof.
  intros [Hsz Hlen]. unfold getCoeff.
  destruct (decide (e >= size p \/ e < 0)) as [Hout|Hin].
  - exists 0. split; [done|]. split; [done | lia].
  - destruct (rd_in_bounds (coeffList p) e) as [v Hv]; [lia|].
    exists v. split; [done|]. split; [lia|].
    intros _. by apply rd_Some in Hv as [_ Hv].
Qed.

(** ** [compare], [operator==] and [operator!=] *)

(** One loop of [compare] whose test is defined from [i] up to [bound]:
    it returns [false] exactly when the test fails somewhere, and otherwise
    leaves the counter at [bound]. *)
Lemma scan_total (test : Z -> option bool) (P : Z -> bool)
    (bound : Z) (fuel : nat) (i : Z) :
  (forall j, i <= j < bound -> test j = Some (P j)) ->
  fuel = Z.to_nat (bound - i) ->
  (scan fuel bound test i = Some (inl false) /\
     exists j, i <= j < bound /\ P j = false) \/
  (scan fuel bound test i = Some (inr (Z.max i bound)) /\
     forall j, i <= j < bound -> P j = true).
Proof.
  revert i. induction fuel as [|fuel IH]; intros i Htest Hfuel.
  - right. simpl. rewrite decide_False by lia.
    split; [f_equal; f_equal; lia | intros j Hj; lia].
  - simpl. rewrite decide_True by lia.
    rewrite Htest by lia. simpl. destruct (P i) eqn:HPi.
    + destruct (IH (i + 1)) as [[-> (j & Hj & HPj)] | [-> Hall]].
      * intros j Hj. apply Htest. lia.
      * lia.
      * left. split; [done|]. exists j. split; [lia | done].
      * right. split; [f_equal; f_equal; lia|].
        intros j Hj. destruct (decide (j = i)) as [->|Hne]; [done|].
        apply Hall. lia.
    + left. split; [done|]. exists i. split; [lia | done].
Qed.

Lemma compare_spec (smaller larger : Poly) :
  valid smaller -> valid larger -> size smaller <= size larger ->
  exists r,
    compare smaller larger = Some r /\ (r = true <-> agree smaller larger).
Proof.
  intros [Hs Hsl] [Hl Hll] Hle. unfold compare, agree.
  destruct (scan_total
    (fun i => x ← rd (coeffList smaller) i;
              y ← rd (coeffList larger) i;
              Some (bool_decide (x = y)))
    (fun i => bool_decide (coeffList smaller !! Z.to_nat i
                           = coeffList larger !! Z.to_nat i))
    (size smaller) (Z.to_nat (size smaller - 0)) 0)
    as [[-> (j & Hj & HPj)] | [-> Hall1]].
  - intros j Hj.
    destruct (rd_in_bounds (coeffList smaller) j) as [x Hx]; [lia|].
    destruct (rd_in_bounds (coeffList larger) j) as [y Hy]; [lia|].
    rewrite Hx, Hy. simpl. apply rd_Some in Hx as [_ ->], Hy as [_ ->].
    f_equal. apply bool_decide_ext. split; congruence.
  - done.
  - exists false. split; [done|]. split; [done|]. intros [H1 _].
    apply bool_decide_eq_false in HPj. destruct HPj.
    rewrite <- (Z2Nat.id j) in Hj by lia. apply H1. lia.
  - simpl. rewrite Z.max_r by lia.
    destruct (scan_total
      (fun i => y ← rd (coeffList larger) i; Some (bool_decide (y = 0)))
      (fun i => bool_decide (coeffList larger !! Z.to_nat i = Some 0))
      (size larger) (Z.to_nat (size larger - size smaller)) (size smaller))
      as [[-> (j & Hj & HPj)] | [-> Hall2]].
    + intros j Hj.
      destruct (rd_in_bounds (coeffList larger) j) as [y Hy]; [lia|].
      rewrite Hy. simpl. apply rd_Some in Hy as [_ ->].
      f_equal. apply bool_decide_ext. split; congruence.
    + done.
    + exists false. split; [done|]. split; [done|]. intros [_ H2].
      apply bool_decide_eq_false in HPj. destruct HPj.
      apply H2. lia.
    + exists true. split; [done|]. split; [|done]. intros _. split.
      * intros k Hk. specialize (Hall1 (Z.of_nat k)).
        rewrite Nat2Z.id in Hall1.
        apply bool_decide_eq_true in Hall1; [done | lia].
      * intros k Hk. specialize (Hall2 (Z.of_nat k)).
        rewrite Nat2Z.id in Hall2.
        apply bool_decide_eq_true in Hall2; [done | lia].
Qed.

(** Between operands of the same size it does not matter which of them is
    taken as the smaller one. *)
Lemma agree_swap (a b : Poly) :
  size a = size b -> agree a b -> agree b a.
Proof.
  intros Hsz [Hcells _]. split.
  - intros k Hk. symmetry. apply Hcells. lia.
  - intros k Hk. lia.
Qed.

(** C4.  On valid objects [a == b] returns a truth value and [a != b] its
    negation; whichever operand of lesser-or-equal size is taken as
    [smaller], the other being [larger], [a == b] is [true] exactly when
    every coefficient of [smaller] equals the coefficient of [larger] at
    the same exponent and every coefficient of [larger] from the size of
    [smaller] on is zero. *)
Theorem operator_eq_spec (a b : Poly) :
  valid a -> valid b ->
  exists r,
    operator_eq a b = Some r /\
    operator_ne a b = Some (negb r) /\
    forall smaller larger,
      (smaller = a /\ larger = b) \/ (smaller = b /\ larger = a) ->
      size smaller <= size larger ->
      (r = true <-> agree smaller larger).
Proof.
  intros Ha Hb. unfold operator_ne, operator_eq.
  destruct (decide (size a > size b)) as [Hgt|Hle].
  - destruct (compare_spec b a) as (r & Hr & Hiff); [done | done | lia |].
    exists r. rewrite Hr. split; [done|]. split; [done|].
    intros smaller larger [[-> ->] | [-> ->]] Hsz; [lia | done].
  - destruct (compare_spec a b) as (r & Hr & Hiff); [done | done | lia |].
    exists r. rewrite Hr. split; [done|]. split; [done|].
    intros smaller larger [[-> ->] | [-> ->]] Hsz; [done|].
    rewrite Hiff. split; apply agree_swap; lia.
Qed.

(** [==] holds between two valid objects with the same size and the same
    cells below it. *)
Lemma operator_eq_same (a b : Poly) :
  valid a -> valid b -> size a = size b ->
  (forall k : nat, Z.of_nat k < size a ->
     coeffList a !! k = coeffList b !! k) ->
  operator_eq a b = Some true.
Proof.
  intros Ha Hb Hsz Hcells. unfold operator_eq.
  rewrite decide_False by lia.
  destruct (compare_spec a b) as (r & -> & Hiff); [done | done | lia |].
  f_equal. apply Hiff. split; [done|]. intros k Hk. lia.
Qed.

(** ** The copy constructor and [operator+] *)

Lemma coef_lookup (a : list Z) (k : nat) :
  (k < length a)%nat -> a !! k = Some (coef a k).
Proof.
  intros Hk. unfold coef.
  by destruct (lookup_lt_is_Some_2 a k Hk) as [x ->].
Qed.

Lemma Poly_copy_spec fresh (orig : Poly) :
  valid orig ->
  exists buf,
    Poly_copy fresh orig = Some (mkPoly buf (size orig)) /\
    length buf = Z.to_nat (size orig) /\
    forall k : nat, Z.of_nat k < size orig ->
      buf !! k = coeffList orig !! k.
Proof.
  intros [Hsz Hlen]. unfold Poly_copy.
  destruct (new_int_Some fresh (size orig)) as (b0 & -> & Hl0); [lia|]. simpl.
  destruct (for_up_copy (coeffList orig) (size orig) b0)
    as (b1 & -> & Hl1 & Hc1); [lia | lia |]. simpl.
  exists b1. split; [done|]. split; [lia|].
  intros k Hk. rewrite Hc1. by rewrite decide_True by lia.
Qed.

Lemma operator_add_spec fresh (p q : Poly) :
  valid p -> valid q ->
  exists buf,
    operator_add fresh p q
      = Some (mkPoly buf (Z.max (size p) (size q))) /\
    length buf = Z.to_nat (Z.max (size p) (size q)) /\
    forall k : nat, Z.of_nat k < Z.max (size p) (size q) ->
      buf !! k = Some (sum_cell p q k).
Proof.
  intros Hp Hq. pose proof Hp as [Hps Hpl]. pose proof Hq as [Hqs Hql].
  unfold operator_add. destruct (decide (size p > size q)) as [Hgt|Hle].
  - destruct (Poly_copy_spec fresh p Hp) as (b0 & -> & Hl0 & Hc0). simpl.
    destruct (for_up_combine Int.add (coeffList q) (size q) b0)
      as (b1 & -> & Hl1 & Hc1); [lia | lia |]. simpl.
    rewrite Z.max_l by lia. exists b1. split; [done|]. split; [lia|].
    intros k Hk. rewrite Hc1. unfold sum_cell.
    destruct (decide (Z.of_nat k < size q)).
    + rewrite decide_True by lia. rewrite Hc0 by lia.
      rewrite (coef_lookup (coeffList p)) by lia.
      by rewrite (coef_lookup (coeffList q)) by lia.
    + rewrite decide_False by lia. rewrite decide_True by lia.
      rewrite Hc0 by lia. apply coef_lookup. lia.
  - destruct (Poly_copy_spec fresh q Hq) as (b0 & -> & Hl0 & Hc0). simpl.
    destruct (for_up_combine Int.add (coeffList p) (size p) b0)
      as (b1 & -> & Hl1 & Hc1); [lia | lia |]. simpl.
    rewrite Z.max_r by lia. exists b1. split; [done|]. split; [lia|].
    intros k Hk. rewrite Hc1. unfold sum_cell.
    destruct (decide (Z.of_nat k < size p)).
    + rewrite decide_True by lia. rewrite Hc0 by lia.
      rewrite (coef_lookup (coeffList p)) by lia.
      rewrite (coef_lookup (coeffList q)) by lia. simpl.
      by rewrite int_add_comm.
    + rewrite decide_False by lia.
      rewrite Hc0 by lia. apply coef_lookup. lia.
Qed.

Lemma sum_cell_comm (p q : Poly) (k : nat) :
  Z.of_nat k < Z.max (size p) (size q) -> sum_cell p q k = sum_cell q p k.
Proof.
  intros Hk. unfold sum_cell.
  destruct (decide (Z.of_nat k < size p)), (decide (Z.of_nat k < size q)).
  - rewrite !decide_True by done. apply int_add_comm.
  - by rewrite !decide_False by lia.
  - by rewrite !decide_False by lia.
  - lia.
Qed.

(** ** The convolution *)

Lemma Zsum_ext (n : nat) (f g : nat -> Z) :
  (forall i, (i < n)%nat -> f i = g i) -> Zsum n f = Zsum n g.
Proof.
  induction n as [|n IH]; intros Hfg; [done|]. simpl.
  rewrite IH by (intros i Hi; apply Hfg; lia). rewrite Hfg by lia. done.
Qed.

Lemma Zsum_add (n : nat) (f g : nat -> Z) :
  Zsum n (fun i => f i + g i) = Zsum n f + Zsum n g.
Proof. induction n as [|n IH]; simpl; lia. Qed.

Lemma Zsum_zero (n : nat) : Zsum n (fun _ => 0) = 0.
Proof. induction n as [|n IH]; simpl; lia. Qed.

(** Interchange of the two summations. *)
Lemma Zsum_swap (n m : nat) (f : nat -> nat -> Z) :
  Zsum n (fun i => Zsum m (fun j => f i j))
  = Zsum m (fun j => Zsum n (fun i => f i j)).
Proof.
  induction n as [|n IH]; simpl.
  - by rewrite Zsum_zero.
  - by rewrite IH, Zsum_add.
Qed.

Lemma conv_comm (a : list Z) (n : nat) (b : list Z) (m : nat) (k : nat) :
  conv a n b m k = conv b m a n k.
Proof.
  unfold conv. rewrite Zsum_swap.
  apply Zsum_ext. intros j _. apply Zsum_ext. intros i _.
  unfold conv_term. destruct (decide (i + j = k)%nat).
  - rewrite decide_True by lia. lia.
  - by rewrite decide_False by lia.
Qed.

Lemma conv_term_hit (a b : list Z) (i j : nat) :
  conv_term a b (i + j) i j = coef a i * coef b j.
Proof. unfold conv_term. by rewrite decide_True. Qed.

Lemma conv_term_miss (a b : list Z) (k i j : nat) :
  (i + j)%nat ≠ k -> conv_term a b k i j = 0.
Proof. intros Hne. unfold conv_term. by rewrite decide_False. Qed.

(** The nested loop adds to every cell [k] of the accumulator, in [int]
    arithmetic, the [k]th coefficient of the product. *)
Lemma convolve_spec (a : list Z) (n : Z) (b : list Z) (m : Z)
    (prod : list Z) (s : nat -> Z) :
  0 <= n <= Z.of_nat (length a) -> 0 <= m <= Z.of_nat (length b) ->
  n + m - 1 <= Z.of_nat (length prod) -> n + m - 1 <= Int.INT_MAX ->
  (forall k : nat, (k < length prod)%nat ->
     prod !! k = Some (Int.wrap (s k))) ->
  exists prod',
    convolve a n b m prod = Some prod' /\
    length prod' = length prod /\
    forall k : nat, (k < length prod)%nat ->
      prod' !! k
        = Some (Int.wrap (s k + conv a (Z.to_nat n) b (Z.to_nat m) k)).
Proof.
  intros Hn Hm Hlen Hmax Hinit. unfold convolve, conv.
  set (M := Z.to_nat m). set (N := Z.to_nat n).
  set (row := fun (k i : nat) => Zsum M (fun j => conv_term a b k i j)).
  apply (for_up_inv
    (fun i pr =>
       length pr = length prod /\
       forall k : nat, (k < length prod)%nat ->
         pr !! k = Some (Int.wrap (s k + Zsum i (row k))))).
  - subst N. lia.
  - split; [done|]. intros k Hk. rewrite Hinit by done. simpl.
    by rewrite Z.add_0_r.
  - intros i t Hi [Hlt Hcells].
    destruct (for_up_inv
      (fun j pr =>
         length pr = length prod /\
         forall k : nat, (k < length prod)%nat ->
           pr !! k = Some (Int.wrap (s k + Zsum i (row k)
                             + Zsum j (fun j' => conv_term a b k i j'))))
      M 0 m
      (fun j prod =>
         acc ← rd prod (Int.add (0 + Z.of_nat i) j);
         x ← rd a (0 + Z.of_nat i);
         y ← rd b j;
         wr prod (Int.add (0 + Z.of_nat i) j) (Int.add acc (Int.mul x y)))
      t) as (t' & Hrun & Hlt' & Hcells').
    + subst M. lia.
    + split; [done|]. intros k Hk. rewrite Hcells by done. simpl.
      by rewrite Z.add_0_r.
    + intros j u Hj [Hlu Hcu]. rewrite !Z.add_0_l.
      assert (Int.add (Z.of_nat i) (Z.of_nat j) = Z.of_nat (i + j)) as ->.
      { unfold Int.add. rewrite wrap_small; [lia|].
        unfold Int.in_range, Int.INT_MIN, Int.INT_MAX in *. lia. }
      assert (HK : (i + j < length prod)%nat) by lia.
      rewrite !rd_lookup. rewrite (Hcu _ HK). simpl.
      rewrite (coef_lookup a i) by lia. simpl.
      rewrite (coef_lookup b j) by lia. simpl.
      rewrite wr_nat by lia. rewrite int_accumulate.
      eexists. split; [done|]. split; [by rewrite length_insert|].
      intros k Hk. simpl.
      destruct (decide (i + j = k)%nat) as [<-|Hne].
      * rewrite list_lookup_insert_eq by lia.
        rewrite conv_term_hit. f_equal. f_equal. lia.
      * rewrite list_lookup_insert_ne by done. rewrite Hcu by done.
        rewrite conv_term_miss by done. f_equal. f_equal. lia.
    + exists t'. split; [done|]. split; [done|].
      intros k Hk. rewrite Hcells' by done. simpl.
      f_equal. f_equal. subst row. simpl. lia.
Qed.

(** ** [operator*] *)

Lemma Poly_default_eq fresh : Poly_default fresh = Some (mkPoly [0] 1).
Proof. reflexivity. Qed.

Lemma Poly_coeff_eq fresh (c : Z) : Poly_coeff fresh c = Some (mkPoly [c] 1).
Proof. reflexivity. Qed.

Lemma valid_singleton (c : Z) : valid (mkPoly [c] 1).
Proof. unfold valid, Int.INT_MAX. simpl. lia. Qed.

(** [prod.setCoeff(0, n - 1)] on a default object: [n] cells, all zero. *)
Lemma zero_buffer fresh (n : Z) :
  1 <= n <= Int.INT_MAX ->
  exists buf,
    setCoeff fresh (mkPoly [0] 1) 0 (n - 1) = Some (mkPoly buf n) /\
    Z.of_nat (length buf) = n /\
    forall k : nat, (k < length buf)%nat -> buf !! k = Some 0.
Proof.
  intros Hn. destruct (decide (n = 1)) as [->|Hne].
  - exists [0]. split; [done|]. split; [done|].
    intros [|k] Hk; [done | simpl in Hk; lia].
  - destruct (setCoeff_grow fresh (mkPoly [0] 1) 0 (n - 1))
      as (buf & Hrun & Hlen & Hcells).
    + apply valid_singleton.
    + simpl. lia.
    + rewrite Z.abs_eq in * by lia.
      replace (n - 1 + 1) with n in * by lia.
      exists buf. split; [done|]. split; [lia|].
      intros k Hk. rewrite Hcells. simpl.
      destruct (decide (Z.of_nat k < 1)).
      * by replace k with 0%nat by lia.
      * destruct (decide (Z.of_nat k < n - 1)); [done|].
        by rewrite decide_True by lia.
Qed.

Lemma int_sum_minus (a b c : Z) :
  Int.in_range (a + b - c) -> Int.sub (Int.add a b) c = a + b - c.
Proof.
  intros Hr. unfold Int.sub, Int.add.
  rewrite wrap_sub_l. by apply wrap_small.
Qed.

Lemma operator_mul_spec fresh (p q : Poly) :
  valid p -> valid q -> size p + size q - 1 <= Int.INT_MAX ->
  exists buf,
    operator_mul fresh p q = Some (mkPoly buf (size p + size q - 1)) /\
    Z.of_nat (length buf) = size p + size q - 1 /\
    forall k : nat, Z.of_nat k < size p + size q - 1 ->
      buf !! k
        = Some (Int.wrap (conv (coeffList p) (Z.to_nat (size p))
                               (coeffList q) (Z.to_nat (size q)) k)).
Proof.
  intros [Hps Hpl] [Hqs Hql] Hmax. unfold operator_mul.
  rewrite Poly_default_eq. simpl.
  rewrite int_sum_minus
    by (unfold Int.in_range, Int.INT_MIN, Int.INT_MAX in *; lia).
  replace (size p + size q - 2) with (size p + size q - 1 - 1) by lia.
  destruct (zero_buffer fresh (size p + size q - 1))
    as (b0 & -> & Hl0 & Hc0); [lia|]. simpl.
  destruct (convolve_spec (coeffList p) (size p) (coeffList q) (size q)
              b0 (fun _ => 0)) as (b1 & -> & Hl1 & Hc1);
    [lia | lia | lia | lia | |].
  - intros k Hk. by rewrite Hc0.
  - simpl. exists b1. split; [done|]. split; [lia|].
    intros k Hk. rewrite Hc1 by lia. by rewrite Z.add_0_l.
Qed.

(** C3.  For valid [p] and [q] whose product length [size p + size q - 1]
    is an [int], [p * q] runs to completion and returns an object of that
    size (at least 1), with an array of as many cells, whose coefficient at
    each exponent [k] is the sum, reduced to [int], of [p[i] * q[j]] over
    all [i < size p] and [j < size q] with [i + j = k].  The operator is a
    [const] member with a [const] argument: it has no effect on [p] or [q],
    which the embedding passes by value. *)
Theorem operator_mul_full_convolution fresh (p q : Poly) :
  valid p -> valid q -> size p + size q - 1 <= Int.INT_MAX ->
  exists r,
    operator_mul fresh p q = Some r /\
    size r = size p + size q - 1 /\
    1 <= size r /\
    Z.of_nat (length (coeffList r)) = size r /\
    forall k : nat, Z.of_nat k < size r ->
      coeffList r !! k
        = Some (Int.wrap (conv (coeffList p) (Z.to_nat (size p))
                               (coeffList q) (Z.to_nat (size q)) k)).
Proof.
  intros Hp Hq Hmax.
  destruct (operator_mul_spec fresh p q Hp Hq Hmax) as (buf & Hrun & Hlen & Hc).
  exists (mkPoly buf (size p + size q - 1)). simpl.
  destruct Hp as [Hps _], Hq as [Hqs _].
  split; [done|]. split; [done|]. split; [lia|]. by split.
Qed.

(** ** Commutativity *)

(** C7.  For valid [p] and [q], [p + q == q + p]; and when the product
    length is an [int], [p * q == q * p].  The two sides of each equation
    may find different content in the storage they allocate. *)
Theorem add_mul_commutative fresh1 fresh2 (p q : Poly) :
  valid p -> valid q ->
  (exists s1 s2,
     operator_add fresh1 p q = Some s1 /\
     operator_add fresh2 q p = Some s2 /\
     operator_eq s1 s2 = Some true) /\
  (size p + size q - 1 <= Int.INT_MAX ->
   exists m1 m2,
     operator_mul fresh1 p q = Some m1 /\
     operator_mul fresh2 q p = Some m2 /\
     operator_eq m1 m2 = Some true).
Proof.
  intros Hp Hq. pose proof Hp as [Hps _]. pose proof Hq as [Hqs _]. split.
  - destruct (operator_add_spec fresh1 p q Hp Hq) as (b1 & Hs1 & Hl1 & Hc1).
    destruct (operator_add_spec fresh2 q p Hq Hp) as (b2 & Hs2 & Hl2 & Hc2).
    do 2 eexists. split; [exact Hs1|]. split; [exact Hs2|].
    apply operator_eq_same; simpl.
    + split; simpl; lia.
    + split; simpl; lia.
    + lia.
    + intros k Hk. rewrite Hc1, Hc2 by lia. f_equal.
      apply sum_cell_comm. lia.
  - intros Hmax.
    destruct (operator_mul_spec fresh1 p q Hp Hq Hmax)
      as (c1 & Hm1 & Hk1 & Hd1).
    destruct (operator_mul_spec fresh2 q p Hq Hp)
      as (c2 & Hm2 & Hk2 & Hd2); [lia|].
    do 2 eexists. split; [exact Hm1|]. split; [exact Hm2|].
    apply operator_eq_same; simpl.
    + split; simpl; lia.
    + split; simpl; lia.
    + lia.
    + intros k Hk. rewrite Hd1, Hd2 by lia. f_equal. f_equal.
      apply conv_comm.
Qed.

(** ** [operator>>] *)

Lemma term_ok_exp_in_range (c e : Z) : term_ok (c, e) -> Int.in_range e.
Proof.
  intros (_ & _ & He). simpl in He.
  unfold Int.in_range, Int.INT_MIN, Int.INT_MAX in *. lia.
Qed.

Lemma extract2_ints (c e : Z) (rest : list Z) :
  Int.in_range c -> Int.in_range e ->
  extract2 (c :: e :: rest) = Some (c, e, rest).
Proof. intros Hc He. unfold extract2. by rewrite !decide_True. Qed.

Lemma extract2_Some (input : list Z) (c e : Z) (rest : list Z) :
  extract2 input = Some (c, e, rest) ->
  input = c :: e :: rest /\ Int.in_range c /\ Int.in_range e.
Proof.
  destruct input as [|c' [|e' input]]; try done. unfold extract2.
  repeat case_decide; try done. by intros [= <- <- <-].
Qed.

Lemma in_range_zero : Int.in_range 0.
Proof. unfold Int.in_range, Int.INT_MIN, Int.INT_MAX. lia. Qed.

Lemma apply_terms_valid fresh (terms : list (Z * Z)) (p : Poly) :
  valid p -> Forall term_ok terms ->
  exists p', apply_terms fresh terms p = Some p' /\ valid p'.
Proof.
  intros Hp Hterms. revert p Hp.
  induction Hterms as [|[c e] terms (_ & _ & He) _ IH]; intros p Hp.
  - by exists p.
  - simpl in *.
    destruct (setCoeff_valid fresh p c e Hp He) as (p1 & -> & Hp1 & _).
    simpl. by apply IH.
Qed.

Lemma read_terms_stop fresh (fuel : nat) (input : list Z) (target : Poly) :
  read_terms fresh fuel 0 0 input target = Some (input, target).
Proof.
  destruct fuel; cbn [read_terms]; (case_decide as Hnz; [|done]);
    destruct Hnz; done.
Qed.

(** The loop of [operator>>] on a stream that holds the pairs [terms]
    after the one already read, then [0 0]: it applies them all and stops
    behind the [0 0]. *)
Lemma read_terms_spec fresh (terms : list (Z * Z)) (rest : list Z) :
  Forall term_ok terms ->
  forall (fuel : nat) (c e : Z) (target : Poly),
    c ≠ 0 \/ e ≠ 0 -> (length terms < fuel)%nat ->
    read_terms fresh fuel c e (tokens terms ++ 0 :: 0 :: rest) target
    = t ← apply_terms fresh ((c, e) :: terms) target; Some (rest, t).
Proof.
  induction 1 as [|[c' e'] terms Hok _ IH];
    intros fuel c e target Hce Hfuel.
  - destruct fuel as [|fuel]; [simpl in Hfuel; lia|].
    cbn [read_terms tokens app apply_terms]. rewrite decide_True by done.
    destruct (setCoeff fresh target c e) as [t1|]; [|done].
    cbn [mbind option_bind].
    rewrite extract2_ints by apply in_range_zero.
    cbn [mbind option_bind]. apply read_terms_stop.
  - destruct fuel as [|fuel]; [simpl in Hfuel; lia|].
    cbn [read_terms tokens app]. rewrite decide_True by done.
    cbn [apply_terms].
    destruct (setCoeff fresh target c e) as [t1|]; [|done].
    cbn [mbind option_bind].
    rewrite extract2_ints
      by (apply Hok || exact (term_ok_exp_in_range c' e' Hok)).
    cbn [mbind option_bind].
    rewrite IH by (apply Hok || (simpl in Hfuel; lia)). done.
Qed.

Lemma length_tokens (terms : list (Z * Z)) :
  length (tokens terms) = (2 * length terms)%nat.
Proof. induction terms as [|[c e] terms IH]; simpl; lia. Qed.

(** C6.  On a valid target and a stream that holds the pairs [terms], all
    of them pairs of [int]s, none of them [0 0] and each with an exponent
    whose absolute value plus one is an [int], followed by [0 0] and by
    [rest], [operator>>] runs to completion: it leaves [rest] in the
    stream, and the target is what [setCoeff], applied to each pair of
    [terms] in order, makes of the target with its first [size] cells
    zeroed and its size kept.  Reading [5 2 3 0 0 0] into a default object
    leaves the coefficients 3, 0 and 5. *)
Theorem operator_in_reads_terms fresh (terms : list (Z * Z)) (rest : list Z)
    (target : Poly) :
  valid target -> Forall term_ok terms ->
  (exists zeroed result,
     size zeroed = size target /\
     length (coeffList zeroed) = length (coeffList target) /\
     (forall k : nat, Z.of_nat k < size target ->
        coeffList zeroed !! k = Some 0) /\
     apply_terms fresh terms zeroed = Some result /\
     operator_in fresh (tokens terms ++ 0 :: 0 :: rest) target
       = Some (rest, result)) /\
  (p ← Poly_default fresh; operator_in fresh [5; 2; 3; 0; 0; 0] p)
    = Some ([], mkPoly [3; 0; 5] 3).
Proof.
  intros Hv Hterms. split; [|reflexivity]. pose proof Hv as [Hsz Hlen].
  destruct (for_up_fill 0 0 (size target) (coeffList target))
    as (zs & Hfill & Hlz & Hcz); [lia | lia |].
  assert (Hvz : valid (mkPoly zs (size target))).
  { split; simpl; lia. }
  destruct (apply_terms_valid fresh terms _ Hvz Hterms) as (result & Hres & _).
  exists (mkPoly zs (size target)), result. simpl.
  split; [done|]. split; [done|]. split.
  { intros k Hk. rewrite Hcz. by rewrite decide_True by lia. }
  split; [done|]. unfold operator_in.
  destruct terms as [|[c e] terms].
  - cbn [tokens app]. rewrite extract2_ints by apply in_range_zero.
    cbn [mbind option_bind]. rewrite Hfill.
    cbn [mbind option_bind]. rewrite read_terms_stop.
    simpl in Hres. congruence.
  - apply Forall_cons in Hterms as [Hok Hterms].
    cbn [tokens app].
    rewrite extract2_ints
      by (apply Hok || exact (term_ok_exp_in_range c e Hok)).
    cbn [mbind option_bind]. rewrite Hfill.
    cbn [mbind option_bind].
    rewrite read_terms_spec; [by rewrite Hres | done | apply Hok |].
    rewrite length_app, length_tokens. simpl. lia.
Qed.

(** ** The class invariant *)

(** A property that every completed iteration keeps is kept by a completed
    loop. *)
Lemma for_loop_preserves {St : Type} (P : St -> Prop) n i step body
    (s s' : St) :
  (forall j t t', P t -> body j t = Some t' -> P t') ->
  P s -> for_loop n i step body s = Some s' -> P s'.
Proof.
  intros Hbody. revert i s. induction n as [|n IH]; intros i s Hs Hrun.
  - simpl in Hrun. congruence.
  - simpl in Hrun. destruct (body i s) as [s1|] eqn:Hb; [|done].
    simpl in Hrun. eapply IH; [|exact Hrun]. by eapply Hbody.
Qed.

Lemma wr_length (a : list Z) (i v : Z) (a' : list Z) :
  wr a i v = Some a' -> length a' = length a /\ 0 <= i < Z.of_nat (length a).
Proof.
  unfold wr. case_decide; [|done]. intros [= <-].
  by rewrite length_insert.
Qed.

Lemma new_int_length fresh (n : Z) (buf : list Z) :
  new_int fresh n = Some buf -> 0 <= n /\ Z.of_nat (length buf) = n.
Proof.
  unfold new_int. case_decide; [|done]. intros [= <-].
  rewrite length_fmap, length_seq. lia.
Qed.

(** The loops of the class only write through [wr]: they keep the length
    of the array. *)
Lemma for_up_combine_length (op : Z -> Z -> Z) (src : list Z) (lo hi : Z)
    (buf buf' : list Z) :
  for_up lo hi (fun i b => x ← rd b i; y ← rd src i; wr b i (op x y)) buf
    = Some buf' ->
  length buf' = length buf.
Proof.
  apply (for_loop_preserves (fun b => length b = length buf)); [|done].
  intros j t t' Ht Hb.
  destruct (rd t j); [|done]. simpl in Hb.
  destruct (rd src j); [|done]. simpl in Hb.
  apply wr_length in Hb as [-> _]. done.
Qed.

Lemma convolve_length (a : list Z) (n : Z) (b : list Z) (m : Z)
    (prod prod' : list Z) :
  convolve a n b m prod = Some prod' -> length prod' = length prod.
Proof.
  apply (for_loop_preserves (fun pr => length pr = length prod)); [|done].
  intros i t t' Ht. rewrite <- Ht.
  apply (for_loop_preserves (fun pr => length pr = length t)); [|done].
  intros j u u' Hu Hb.
  destruct (rd u (Int.add i j)); [|done]. simpl in Hb.
  destruct (rd a i); [|done]. simpl in Hb.
  destruct (rd b j); [|done]. simpl in Hb.
  apply wr_length in Hb as [-> _]. done.
Qed.

(** A call of [setCoeff] that completes had an exponent within the
    precondition of [setCoeff_valid]. *)
Lemma setCoeff_Some_range fresh (p : Poly) (c e : Z) (p' : Poly) :
  valid p -> Int.in_range e -> setCoeff fresh p c e = Some p' ->
  Z.abs e < Int.INT_MAX.
Proof.
  intros [Hsz Hlen] He Hrun.
  unfold Int.in_range, Int.INT_MIN, Int.INT_MAX in *.
  destruct (decide (Z.abs e < 2147483647)) as [|Hbig]; [done|]. exfalso.
  assert (e = 2147483647 \/ e = -2147483647 \/ e = -2147483648)
    as [-> | [-> | ->]] by lia;
    unfold setCoeff in Hrun; simpl in Hrun.
  - rewrite decide_True in Hrun by lia. done.
  - change (Int.mul (-2147483647) (-1)) with 2147483647 in Hrun.
    rewrite decide_True in Hrun by lia. done.
  - change (Int.mul (-2147483648) (-1)) with (-2147483648) in Hrun.
    by case_decide.
Qed.

Lemma setCoeff_keeps_valid fresh (p : Poly) (c e : Z) (p' : Poly) :
  valid p -> Int.in_range e -> setCoeff fresh p c e = Some p' -> valid p'.
Proof.
  intros Hp He Hrun.
  pose proof (setCoeff_Some_range fresh p c e p' Hp He Hrun) as Habs.
  destruct (setCoeff_valid fresh p c e Hp Habs) as (p1 & Hrun1 & Hv & _).
  congruence.
Qed.

Lemma Poly_coeff_exp_valid fresh (c e : Z) (p : Poly) :
  Poly_coeff_exp fresh c e = Some p -> valid p.
Proof.
  unfold Poly_coeff_exp.
  set (sz := if decide (e < 0) then Int.add (Int.mul e (-1)) 1
             else Int.add e 1).
  assert (Hr : Int.in_range sz) by (subst sz; case_decide; apply wrap_in_range).
  clearbody sz. unfold Int.in_range, Int.INT_MIN, Int.INT_MAX in Hr.
  destruct (new_int fresh sz) as [b0|] eqn:H0; [|done]. simpl.
  apply new_int_length in H0 as [Hsz Hl0].
  destruct (for_up _ _ _ b0) as [b1|] eqn:H1; [|done]. simpl.
  apply (for_loop_preserves (fun b => length b = length b0)) in H1;
    [|by intros j t t' Ht [-> _]%wr_length | done].
  destruct (wr b1 _ c) as [b2|] eqn:H2; [|done]. simpl. intros [= <-].
  apply wr_length in H2 as [Hl2 Hidx].
  unfold Int.sub in Hidx. rewrite wrap_small in Hidx
    by (unfold Int.in_range, Int.INT_MIN, Int.INT_MAX; lia).
  split; simpl; unfold Int.INT_MAX; lia.
Qed.

Lemma Poly_copy_valid fresh (q p : Poly) :
  valid q -> Poly_copy fresh q = Some p -> valid p.
Proof.
  intros Hq Hrun. pose proof Hq as [Hsz _].
  destruct (Poly_copy_spec fresh q Hq) as (buf & Hrun' & Hlen & _).
  rewrite Hrun' in Hrun. injection Hrun as <-. split; simpl; lia.
Qed.

Lemma assign_from_valid fresh (this rhs p : Poly) :
  valid rhs -> assign_from fresh this rhs = Some p -> valid p.
Proof. apply Poly_copy_valid. Qed.

Lemma operator_add_valid fresh (q r p : Poly) :
  valid q -> valid r -> operator_add fresh q r = Some p -> valid p.
Proof.
  intros Hq Hr Hrun. pose proof Hq as [Hqs _]. pose proof Hr as [Hrs _].
  destruct (operator_add_spec fresh q r Hq Hr) as (buf & Hrun' & Hlen & _).
  rewrite Hrun' in Hrun. injection Hrun as <-. split; simpl; lia.
Qed.

(** The step [if (size < rhs.size) setCoeff(0, rhs.size - 1);] shared by
    [operator-], [operator+=] and [operator-=]. *)
Lemma grow_to_valid fresh (this rhs this' : Poly) :
  valid this -> valid rhs ->
  (if decide (size this < size rhs)
   then setCoeff fresh this 0 (Int.sub (size rhs) 1) else Some this)
    = Some this' ->
  valid this'.
Proof.
  intros Ht Hr. case_decide; [|congruence].
  apply setCoeff_keeps_valid; [done | apply wrap_in_range].
Qed.

Lemma operator_sub_valid fresh (q r p : Poly) :
  valid q -> valid r -> operator_sub fresh q r = Some p -> valid p.
Proof.
  intros Hq Hr. unfold operator_sub.
  destruct (Poly_copy fresh q) as [d0|] eqn:H0; [|done]. simpl.
  apply Poly_copy_valid in H0; [|done].
  destruct (if decide (size q < size r) then _ else _) as [d1|] eqn:H1;
    [|done]. simpl.
  assert (Hd1 : valid d1).
  { destruct (decide (size q < size r)).
    - eapply setCoeff_keeps_valid; [exact H0 | apply wrap_in_range | exact H1].
    - congruence. }
  destruct (for_up _ _ _ _) as [b|] eqn:H2; [|done]. simpl. intros [= <-].
  apply for_up_combine_length in H2. destruct Hd1 as [? ?].
  split; simpl; lia.
Qed.

Lemma operator_mul_valid fresh (q r p : Poly) :
  operator_mul fresh q r = Some p -> valid p.
Proof.
  unfold operator_mul. rewrite Poly_default_eq. simpl.
  destruct (setCoeff fresh _ 0 _) as [pr|] eqn:H0; [|done]. simpl.
  apply setCoeff_keeps_valid in H0;
    [| apply valid_singleton | apply wrap_in_range].
  destruct (convolve _ _ _ _ _) as [b|] eqn:H1; [|done]. simpl.
  intros [= <-]. apply convolve_length in H1. destruct H0 as [? ?].
  split; simpl; lia.
Qed.

Lemma compound_valid fresh (op : Z -> Z -> Z) (q r p : Poly) :
  valid q -> valid r ->
  (this ← (if decide (size q < size r)
           then setCoeff fresh q 0 (Int.sub (size r) 1) else Some q);
   buf ← for_up 0 (size this)
            (fun i b => x ← rd b i; y ← rd (coeffList r) i; wr b i (op x y))
            (coeffList this);
   Some (mkPoly buf (size this))) = Some p ->
  valid p.
Proof.
  intros Hq Hr.
  destruct (if decide (size q < size r) then _ else _) as [q1|] eqn:H0;
    [|done]. simpl.
  apply grow_to_valid in H0; [|done..].
  destruct (for_up _ _ _ _) as [b|] eqn:H1; [|done]. simpl. intros [= <-].
  apply for_up_combine_length in H1. destruct H0 as [? ?].
  split; simpl; lia.
Qed.

Lemma operator_mul_assign_valid fresh (q r p : Poly) :
  valid q -> valid r -> operator_mul_assign fresh q r = Some p -> valid p.
Proof.
  intros [Hqs Hql] [Hrs Hrl]. unfold operator_mul_assign.
  destruct (new_int fresh _) as [b0|] eqn:H0; [|done]. simpl.
  apply new_int_length in H0 as [Hn Hl0].
  destruct (convolve _ _ _ _ _) as [b1|] eqn:H1; [|done]. simpl.
  intros [= <-]. apply convolve_length in H1.
  split; simpl; [done|]. rewrite H1, Hl0.
  unfold Int.INT_MAX in *. unfold Int.sub, Int.add in *.
  rewrite wrap_sub_l in *.
  destruct (decide (size q + size r - 1 <= 2147483647)) as [Hfit|Hover].
  - rewrite wrap_small
      by (unfold Int.in_range, Int.INT_MIN, Int.INT_MAX; lia). lia.
  - exfalso. unfold Int.wrap in Hn.
    replace (size q + size r - 1 + 2147483648)
      with (size q + size r - 1 - 2147483648 + 1 * 4294967296) in Hn by lia.
    rewrite Z_mod_plus_full in Hn. rewrite Z.mod_small in Hn; lia.
Qed.

Lemma read_terms_valid fresh (fuel : nat) :
  forall (c e : Z) (input : list Z) (target : Poly) rest p,
    valid target -> Int.in_range e -> Forall Int.in_range input ->
    read_terms fresh fuel c e input target = Some (rest, p) -> valid p.
Proof.
  induction fuel as [|fuel IH]; intros c e input target rest p Ht He Hin;
    cbn [read_terms]; case_decide; try done; try congruence.
  destruct (setCoeff fresh target c e) as [t1|] eqn:H0; [|done].
  cbn [mbind option_bind].
  apply setCoeff_keeps_valid in H0; [|done..].
  destruct (extract2 input) as [[[c' e'] input']|] eqn:Hnext; [|done].
  cbn [mbind option_bind].
  apply extract2_Some in Hnext as (-> & _ & He').
  apply Forall_cons in Hin as [_ [_ Hin]%Forall_cons].
  by apply IH.
Qed.

Lemma operator_in_valid fresh (input rest : list Z) (q p : Poly) :
  valid q -> Forall Int.in_range input ->
  operator_in fresh input q = Some (rest, p) -> valid p.
Proof.
  intros [Hs Hl] Hin. unfold operator_in.
  destruct (extract2 input) as [[[c e] input']|] eqn:Hfirst; [|done].
  cbn [mbind option_bind].
  apply extract2_Some in Hfirst as (-> & _ & He).
  apply Forall_cons in Hin as [_ [_ Hin]%Forall_cons].
  destruct (for_up _ _ _ _) as [b|] eqn:H0; [|done].
  cbn [mbind option_bind].
  apply (for_loop_preserves (fun b => length b = length (coeffList q))) in H0;
    [|by intros j t t' Ht [-> _]%wr_length | done].
  apply read_terms_valid; [|done..]. split; simpl; lia.
Qed.

Lemma produced_valid (p : Poly) : produced p -> valid p.
Proof.
  induction 1 as
    [fresh p H | fresh c p _ H | fresh c e p _ _ H | fresh q p _ IHq H
    | fresh q c e p _ IHq _ He H
    | fresh q r p _ IHq _ IHr H | fresh q r p _ IHq _ IHr H
    | fresh q r p _ IHq _ IHr H
    | fresh this rhs objs objs' p _ IHobjs H Hp
    | fresh q r p _ IHq _ IHr H | fresh q r p _ IHq _ IHr H
    | fresh q r p _ IHq _ IHr H
    | fresh q input rest p _ IHq Hin H ].
  - rewrite Poly_default_eq in H. injection H as <-. apply valid_singleton.
  - rewrite Poly_coeff_eq in H. injection H as <-. apply valid_singleton.
  - exact (Poly_coeff_exp_valid fresh c e p H).
  - exact (Poly_copy_valid fresh q p IHq H).
  - exact (setCoeff_keeps_valid fresh q c e p IHq He H).
  - exact (operator_add_valid fresh q r p IHq IHr H).
  - exact (operator_sub_valid fresh q r p IHq IHr H).
  - exact (operator_mul_valid fresh q r p H).
  - unfold operator_assign in H.
    destruct (objs !! this) as [self|] eqn:Hself; [|done]. simpl in H.
    case_decide as Hne.
    + destruct (objs !! rhs) as [other|] eqn:Hother; [|done]. simpl in H.
      destruct (assign_from fresh self other) as [self'|] eqn:Hassign; [|done].
      simpl in H. injection H as <-.
      rewrite lookup_insert_eq in Hp. injection Hp as <-.
      eapply assign_from_valid; [|exact Hassign]. by eapply IHobjs.
    + injection H as <-. by eapply IHobjs.
  - exact (compound_valid fresh Int.add q r p IHq IHr H).
  - exact (compound_valid fresh Int.sub q r p IHq IHr H).
  - exact (operator_mul_assign_valid fresh q r p IHq IHr H).
  - exact (operator_in_valid fresh input rest q p IHq Hin H).
Qed.

(** C9.  Every object that a constructor builds, and every object that
    [setCoeff], the assignment, the arithmetic operators, their compound
    forms or [operator>>] return or leave behind, has a [size] of at least
    1 and an array of at least [size] cells, hence of at least one. *)
Theorem length_at_least_one (p : Poly) :
  produced p ->
  1 <= size p /\ size p <= Z.of_nat (length (coeffList p)) /\
  (1 <= length (coeffList p))%nat.
Proof.
  intros Hp. apply produced_valid in Hp as [Hsz Hlen]. lia.
Qed.

(** ** [operator=] *)

(** C10.  Assigning an object to itself leaves the store of objects as it
    was: the guard [this != &rhs] fails and the array is not replaced, so
    the size and every coefficient of the object are unchanged. *)
Theorem self_assignment_unchanged fresh (this : nat) (objs : gmap nat Poly)
    (p : Poly) :
  objs !! this = Some p ->
  exists objs',
    operator_assign fresh this this objs = Some objs' /\
    objs' = objs /\
    objs' !! this = Some p.
Proof.
  intros Hp. exists objs. unfold operator_assign. rewrite Hp. simpl.
  by rewrite decide_False by (intros Hne; by apply Hne).
Qed.

(** ** [operator*=] *)

(** [operator*=] never assigns [size]. *)
Lemma operator_mul_assign_size fresh (p q r : Poly) :
  operator_mul_assign fresh p q = Some r -> size r = size p.
Proof.
  unfold operator_mul_assign.
  destruct (new_int fresh _) as [b0|]; [|done]. simpl.
  destruct (convolve _ _ _ _ _) as [b1|]; [|done]. simpl.
  by intros [= <-].
Qed.

(** What [operator*=] leaves in the new array when the product length is
    an [int]: in each cell, what the storage held plus the coefficient of
    the product. *)
Lemma operator_mul_assign_cells fresh (p q : Poly) :
  valid p -> valid q -> size p + size q - 1 <= Int.INT_MAX ->
  (forall cell, Int.in_range (fresh cell)) ->
  exists buf,
    operator_mul_assign fresh p q = Some (mkPoly buf (size p)) /\
    Z.of_nat (length buf) = size p + size q - 1 /\
    forall k : nat, Z.of_nat k < size p + size q - 1 ->
      buf !! k
        = Some (Int.wrap (fresh k
                          + conv (coeffList p) (Z.to_nat (size p))
                                 (coeffList q) (Z.to_nat (size q)) k)).
Proof.
  intros [Hps Hpl] [Hqs Hql] Hmax Hfresh. unfold operator_mul_assign.
  rewrite int_sum_minus
    by (unfold Int.in_range, Int.INT_MIN, Int.INT_MAX in *; lia).
  destruct (new_int_Some fresh (size p + size q - 1))
    as (b0 & Hnew & Hl0); [lia|].
  rewrite Hnew. simpl.
  destruct (convolve_spec (coeffList p) (size p) (coeffList q) (size q)
              b0 fresh) as (b1 & -> & Hl1 & Hc1); [lia | lia | lia | lia | |].
  - intros k Hk. unfold new_int in Hnew.
    rewrite decide_True in Hnew by lia. injection Hnew as <-.
    rewrite list_lookup_fmap, lookup_seq_lt by lia. simpl.
    by rewrite wrap_small.
  - simpl. exists b1. split; [done|]. split; [lia|].
    intros k Hk. apply Hc1. lia.
Qed.

(** C1.  [operator*=] at [p = 2x] and [q = 3x], whose product is [6x^2]
    and has three coefficients.  [p * q] returns that product.  After
    [p *= q] the size of [p] is still 2, so that [getCoeff(2)] returns 0,
    and each cell of the new array holds what the allocated storage held
    plus the coefficient of the product. *)
Theorem operator_mul_assign_defect fresh :
  operator_mul fresh (mkPoly [0; 2] 2) (mkPoly [0; 3] 2)
    = Some (mkPoly [0; 0; 6] 3) /\
  exists r,
    operator_mul_assign fresh (mkPoly [0; 2] 2) (mkPoly [0; 3] 2) = Some r /\
    size r = 2 /\
    getCoeff r 2 = Some 0 /\
    coeffList r = [Int.add (fresh 0%nat) 0;
                   Int.add (Int.add (fresh 1%nat) 0) 0;
                   Int.add (fresh 2%nat) 6].
Proof.
  split; [reflexivity|]. eexists. split; [reflexivity|]. by simpl.
Qed.

(** ** [operator<<] *)

Lemma put_other (o s : ostream) (text : string) (w : ostream -> string) :
  s ≠ o -> put o text w s = w s.
Proof. intros Hne. unfold put. by rewrite decide_False. Qed.

Lemma put_same (o : ostream) (text : string) (w : ostream -> string) :
  put o text w o = w o +:+ text.
Proof. unfold put. by rewrite decide_True. Qed.

(** [operator<<] leaves every stream but [cout] as it was, the one it is
    given included. *)
Lemma operator_out_other_streams (output : ostream) (source : Poly)
    (w w' : ostream -> string) (o : ostream) :
  operator_out output source w = Some (o, w') ->
  o = output /\ forall s, s ≠ cout -> w' s = w s.
Proof.
  unfold operator_out.
  destruct (for_down _ _ _) as [[nz w1]|] eqn:Hloop; [|done]. simpl.
  intros [= <- <-]. split; [done|]. intros s Hs.
  apply (for_loop_preserves (fun st => st.2 s = w s)) in Hloop; [|clear Hloop|done].
  - simpl in Hloop. destruct nz; [done|]. by rewrite put_other.
  - intros j [nz0 w0] [nz2 w2] Hw0. simpl in Hw0.
    destruct (rd (coeffList source) j) as [c|]; [|done]. simpl.
    case_decide; intros [= <- <-]; [|done]. simpl.
    repeat case_decide; by rewrite ?put_other.
Qed.

Lemma append_assoc (s1 s2 s3 : string) :
  (s1 +:+ s2) +:+ s3 = s1 +:+ (s2 +:+ s3).
Proof.
  induction s1 as [|c s1 IH]; [done|].
  change (String c ((s1 +:+ s2) +:+ s3) = String c (s1 +:+ (s2 +:+ s3))).
  by f_equal.
Qed.

Lemma append_empty_r (s : string) : s +:+ "" = s.
Proof.
  induction s as [|c s IH]; [done|].
  change (String c (s +:+ "") = String c s). by f_equal.
Qed.

(** One iteration of the loop of [operator<<] on a coefficient other than
    zero appends the text of its term to [cout]. *)
Lemma put_term (c i : Z) (w : ostream -> string) :
  (let w := put cout " " w in
   let w := if decide (c > 0) then put cout "+" w else w in
   let w := put cout (pretty c) w in
   let w := if decide (i > 0) then put cout "x" w else w in
   if decide (i > 1) then put cout (pretty i) (put cout "^" w) else w) cout
  = w cout +:+ term_text c i.
Proof.
  unfold term_text. cbv zeta.
  destruct (decide (c > 0)), (decide (i > 0)), (decide (i > 1));
    try lia;
    repeat (rewrite decide_True by lia);
    repeat (rewrite decide_False by lia);
    rewrite ?put_same, ?append_assoc, ?append_empty_r; done.
Qed.

Lemma all_zero_lookup (a : list Z) (n : nat) :
  (n <= length a)%nat ->
  Forall (fun c => c = 0) (take n a) <->
  forall k : nat, (k < n)%nat -> coef a k = 0.
Proof.
  intros Hn. rewrite Forall_lookup. split.
  - intros Hall k Hk. apply (Hall k).
    rewrite lookup_take_lt by done. apply coef_lookup. lia.
  - intros Hall k x [Hx Hk]%lookup_take_Some.
    specialize (Hall k Hk). unfold coef in Hall. by rewrite Hx in Hall.
Qed.

(** The text that [operator<<] produces, and where it goes: [cout]
    receives [format source]; every other stream, the argument [output]
    included, is left as it was. *)
Lemma operator_out_text (output : ostream) (source : Poly)
    (w : ostream -> string) :
  valid source ->
  exists w',
    operator_out output source w = Some (output, w') /\
    w' cout = w cout +:+ format source /\
    forall s, s ≠ cout -> w' s = w s.
Proof.
  intros [Hsz Hlen]. unfold operator_out, for_down.
  assert (Int.sub (size source) 1 = size source - 1) as ->.
  { apply wrap_small. unfold Int.in_range, Int.INT_MIN, Int.INT_MAX in *. lia. }
  set (a := coeffList source). set (n := Z.to_nat (size source)).
  replace (Z.to_nat (size source - 1 + 1)) with n by lia.
  destruct (for_loop_inv
    (fun j (st : bool * (ostream -> string)) =>
       exists txt,
         st.2 cout = w cout +:+ txt /\
         txt +:+ terms_text a (n - j) = terms_text a n /\
         (st.1 = false ->
            txt = "" /\
            forall k : nat, (n - j <= k < n)%nat -> coef a k = 0) /\
         (st.1 = true -> exists k : nat, (k < n)%nat /\ coef a k ≠ 0))
    n (size source - 1) (-1)
    (fun i '(nonzero, w) =>
       c ← rd a i;
       if decide (c ≠ 0) then
         let nonzero := true in
         let w := put cout " " w in
         let w := if decide (c > 0) then put cout "+" w else w in
         let w := put cout (pretty c) w in
         let w := if decide (i > 0) then put cout "x" w else w in
         let w := if decide (i > 1)
                  then put cout (pretty i) (put cout "^" w) else w in
         Some (nonzero, w)
       else Some (nonzero, w))
    (false, w)) as ([nz w1] & Hrun & txt & Hw1 & Htxt & Hfalse & Htrue).
  - exists "". simpl. rewrite append_empty_r, Nat.sub_0_r.
    split; [done|]. split; [done|]. split; [|done].
    intros _. split; [done|]. intros k Hk. lia.
  - intros j [nz0 w0] Hj (txt & Hw0 & Htxt & Hfalse & Htrue). simpl in *.
    replace (size source - 1 + Z.of_nat j * -1)
      with (Z.of_nat (n - S j)) by lia.
    rewrite rd_lookup, (coef_lookup a (n - S j)) by (subst a; lia). simpl.
    replace (n - j)%nat with (S (n - S j)) in Htxt by lia.
    simpl in Htxt.
    destruct (decide (coef a (n - S j) = 0)) as [Hz|Hnz].
    + rewrite decide_False by (intros Hc; by apply Hc).
      eexists. split; [done|]. exists txt. simpl.
      split; [done|]. split; [done|]. split; [|done].
      intros Hnz0. destruct (Hfalse Hnz0) as [-> Hzeros].
      split; [done|]. intros k Hk.
      destruct (decide (k = (n - S j)%nat)) as [->|]; [done|].
      apply Hzeros. lia.
    + rewrite decide_True by done.
      eexists. split; [done|].
      exists (txt +:+ term_text (coef a (n - S j)) (Z.of_nat (n - S j))).
      simpl. split; [|split; [|split; [done|]]].
      * rewrite put_term, Hw0. by rewrite append_assoc.
      * by rewrite append_assoc.
      * intros _. exists (n - S j)%nat. split; [lia | done].
  - simpl in *. rewrite Nat.sub_diag in Htxt. simpl in Htxt.
    rewrite append_empty_r in Htxt. subst txt.
    unfold for_down in Hrun. rewrite Hrun. simpl.
    assert (Hother : forall s, s ≠ cout -> w1 s = w s).
    { refine (for_loop_preserves
                (fun st => forall s, s ≠ cout -> st.2 s = w s)
                _ _ _ _ _ (nz, w1) _ _ Hrun); [|done].
      intros i [nz0 w0] [nz2 w2] Hw0. simpl in Hw0.
      destruct (rd a i) as [c|]; [|done]. simpl.
      case_decide; intros [= <- <-]; [|done]. simpl. intros s Hs.
      repeat case_decide; rewrite ?put_other by done; by apply Hw0. }
    unfold format. fold a n.
    destruct nz.
    + exists w1. split; [done|]. split; [|done].
      rewrite decide_False; [done|].
      rewrite all_zero_lookup by (subst a n; lia).
      intros Hall. destruct Htrue as (k & Hk & Hnz); [done|]. by apply Hnz, Hall.
    + exists (put cout " 0" w1). split; [done|]. split.
      * rewrite put_same, Hw1. destruct Hfalse as [Hempty Hzeros]; [done|].
        rewrite Hempty, append_empty_r.
        rewrite decide_True; [done|].
        rewrite all_zero_lookup by (subst a n; lia).
        intros k Hk. apply Hzeros. lia.
      * intros s Hs. rewrite put_other by done. by apply Hother.
Qed.

(** C2.  [operator<<] at the polynomial [4x^5] and an output stream other
    than [cout]: the text [" +4x^5"] is appended to [cout], and the stream
    passed as argument receives nothing. *)
Theorem operator_out_writes_to_cout :
  exists w',
    operator_out (ostream_at 0) (mkPoly [0; 0; 0; 0; 0; 4] 6) (fun _ => "")
      = Some (ostream_at 0, w') /\
    w' cout = " +4x^5" /\
    w' (ostream_at 0) = "".
Proof. eexists. split; [reflexivity|]. split; reflexivity. Qed.

(** ** The scenarios of the specification *)

Example scenario_single_term :
  Poly_coeff_exp junk 4 5 = Some (mkPoly [0; 0; 0; 0; 0; 4] 6) /\
  format (mkPoly [0; 0; 0; 0; 0; 4] 6) = " +4x^5".
Proof. split; reflexivity. Qed.

Example scenario_sum :
  (p ← Poly_coeff junk 3; q ← Poly_coeff_exp junk 4 2; operator_add junk p q)
    = Some (mkPoly [3; 0; 4] 3) /\
  format (mkPoly [3; 0; 4] 3) = " +4x^2 +3".
Proof. split; reflexivity. Qed.

Example scenario_product :
  (p ← Poly_coeff_exp junk 2 1; q ← Poly_coeff_exp junk 3 1;
   operator_mul junk p q) = Some (mkPoly [0; 0; 6] 3) /\
  format (mkPoly [0; 0; 6] 3) = " +6x^2".
Proof. split; reflexivity. Qed.

Example scenario_difference :
  (p ← Poly_coeff_exp junk 1 2; q ← Poly_coeff_exp junk 1 2;
   operator_sub junk p q) = Some (mkPoly [0; 0; 0] 3) /\
  format (mkPoly [0; 0; 0] 3) = " 0".
Proof. split; reflexivity. Qed.

Example scenario_format :
  format (mkPoly [4; 0; -3; 1] 4) = " +1x^3 -3x^2 +4".
Proof. reflexivity. Qed.

Example scenario_padding :
  operator_eq (mkPoly [2] 1) (mkPoly [2; 0] 2) = Some true.
Proof. reflexivity. Qed.

(** [operator+=] with a receiver longer than its argument reads the
    argument's array up to the receiver's size, beyond its end. *)
Example add_assign_longer_receiver :
  operator_add_assign junk (mkPoly [1; 2] 2) (mkPoly [5] 1) = None.
Proof. reflexivity. Qed.

(** An integer in the stream that is not an [int] makes the extraction
    fail: [operator>>] has no result on the stream
    [5 2 3000000000 1 0 0]. *)
Example operator_in_token_not_int :
  operator_in junk [5; 2; 3000000000; 1; 0; 0] (mkPoly [7; 8] 2) = None.
Proof. reflexivity. Qed.

(** ** The theorems at sample inputs *)

Lemma valid_sample (a : list Z) (n : Z) :
  1 <= n -> n <= 2147483647 -> n <= Z.of_nat (length a) -> valid (mkPoly a n).
Proof. intros H1 H2 H3. split; [split|]; assumption. Defined.

Lemma term_ok_sample (c e : Z) :
  -2147483648 <= c -> c <= 2147483647 -> c ≠ 0 \/ e ≠ 0 ->
  Z.abs e < 2147483647 -> term_ok (c, e).
Proof.
  intros H1 H2 H3 H4. split; [split; assumption|]. split; assumption.
Defined.

(** [setCoeff(9, -4)] on [2x + 1]. *)
Lemma setCoeff_sets_and_grows_witness :
  valid (mkPoly [1; 2] 2) /\ Z.abs (-4) < Int.INT_MAX /\
  exists p',
    setCoeff junk (mkPoly [1; 2] 2) 9 (-4) = Some p' /\
    getCoeff p' 4 = Some 9 /\ size p' = 5.
Proof.
  assert (Hv : valid (mkPoly [1; 2] 2)) by (apply valid_sample; simpl; lia).
  assert (He : Z.abs (-4) < Int.INT_MAX) by (unfold Int.INT_MAX; simpl; lia).
  split; [exact Hv|]. split; [exact He|].
  destruct (setCoeff_sets_and_grows junk (mkPoly [1; 2] 2) 9 (-4) Hv He)
    as (p' & Hrun & Hget & Hgrow & _).
  exists p'. split; [exact Hrun|]. split; [exact Hget|].
  apply Hgrow. simpl. lia.
Defined.

(** [getCoeff(7)] on [2x + 1]. *)
Lemma getCoeff_never_fails_witness :
  valid (mkPoly [1; 2] 2) /\
  exists v, getCoeff (mkPoly [1; 2] 2) 7 = Some v /\ v = 0.
Proof.
  assert (Hv : valid (mkPoly [1; 2] 2)) by (apply valid_sample; simpl; lia).
  split; [exact Hv|].
  destruct (getCoeff_never_fails (mkPoly [1; 2] 2) 7 Hv) as (v & Hrun & Hout & _).
  exists v. split; [exact Hrun|]. apply Hout. right. simpl. lia.
Defined.

(** [2] against [0x + 2]. *)
Lemma operator_eq_spec_witness :
  valid (mkPoly [2] 1) /\ valid (mkPoly [2; 0] 2) /\
  exists r,
    operator_eq (mkPoly [2] 1) (mkPoly [2; 0] 2) = Some r /\
    operator_ne (mkPoly [2] 1) (mkPoly [2; 0] 2) = Some (negb r).
Proof.
  assert (Ha : valid (mkPoly [2] 1)) by (apply valid_sample; simpl; lia).
  assert (Hb : valid (mkPoly [2; 0] 2)) by (apply valid_sample; simpl; lia).
  split; [exact Ha|]. split; [exact Hb|].
  destruct (operator_eq_spec (mkPoly [2] 1) (mkPoly [2; 0] 2) Ha Hb)
    as (r & Heq & Hne & _).
  exists r. split; [exact Heq | exact Hne].
Defined.

(** [2x * 3x]. *)
Lemma operator_mul_full_convolution_witness :
  valid (mkPoly [0; 2] 2) /\ valid (mkPoly [0; 3] 2) /\
  2 + 2 - 1 <= Int.INT_MAX /\
  exists r,
    operator_mul junk (mkPoly [0; 2] 2) (mkPoly [0; 3] 2) = Some r /\
    size r = 3 /\ coeffList r !! 2%nat = Some 6.
Proof.
  assert (Hp : valid (mkPoly [0; 2] 2)) by (apply valid_sample; simpl; lia).
  assert (Hq : valid (mkPoly [0; 3] 2)) by (apply valid_sample; simpl; lia).
  assert (Hm : 2 + 2 - 1 <= Int.INT_MAX) by (unfold Int.INT_MAX; lia).
  split; [exact Hp|]. split; [exact Hq|]. split; [exact Hm|].
  destruct (operator_mul_full_convolution junk
              (mkPoly [0; 2] 2) (mkPoly [0; 3] 2) Hp Hq Hm)
    as (r & Hrun & Hsz & _ & _ & Hcells).
  exists r. split; [exact Hrun|]. split; [exact Hsz|].
  rewrite Hcells; [reflexivity|]. rewrite Hsz. simpl. lia.
Defined.

(** [(3 + 4x^2)] and [x], added and multiplied in both orders. *)
Lemma add_mul_commutative_witness :
  valid (mkPoly [3; 0; 4] 3) /\ valid (mkPoly [0; 1] 2) /\
  3 + 2 - 1 <= Int.INT_MAX /\
  (exists s1 s2,
     operator_add junk (mkPoly [3; 0; 4] 3) (mkPoly [0; 1] 2) = Some s1 /\
     operator_add (fun _ => 0) (mkPoly [0; 1] 2) (mkPoly [3; 0; 4] 3)
       = Some s2 /\
     operator_eq s1 s2 = Some true) /\
  (exists m1 m2,
     operator_mul junk (mkPoly [3; 0; 4] 3) (mkPoly [0; 1] 2) = Some m1 /\
     operator_mul (fun _ => 0) (mkPoly [0; 1] 2) (mkPoly [3; 0; 4] 3)
       = Some m2 /\
     operator_eq m1 m2 = Some true).
Proof.
  assert (Hp : valid (mkPoly [3; 0; 4] 3)) by (apply valid_sample; simpl; lia).
  assert (Hq : valid (mkPoly [0; 1] 2)) by (apply valid_sample; simpl; lia).
  assert (Hm : 3 + 2 - 1 <= Int.INT_MAX) by (unfold Int.INT_MAX; lia).
  split; [exact Hp|]. split; [exact Hq|]. split; [exact Hm|].
  destruct (add_mul_commutative junk (fun _ => 0)
              (mkPoly [3; 0; 4] 3) (mkPoly [0; 1] 2) Hp Hq) as [Hadd Hmul].
  split; [exact Hadd | exact (Hmul Hm)].
Defined.

(** The stream [5 2 3 0 0 0 9] read into [7 + 8x]. *)
Lemma operator_in_reads_terms_witness :
  valid (mkPoly [7; 8] 2) /\ Forall term_ok [(5, 2); (3, 0)] /\
  exists result,
    operator_in junk (tokens [(5, 2); (3, 0)] ++ 0 :: 0 :: [9])
      (mkPoly [7; 8] 2) = Some ([9], result).
Proof.
  assert (Hv : valid (mkPoly [7; 8] 2)) by (apply valid_sample; simpl; lia).
  assert (Ht : Forall term_ok [(5, 2); (3, 0)]).
  { repeat (constructor; [apply term_ok_sample; simpl; lia|]). constructor. }
  split; [exact Hv|]. split; [exact Ht|].
  destruct (operator_in_reads_terms junk [(5, 2); (3, 0)] [9]
              (mkPoly [7; 8] 2) Hv Ht)
    as [(zeroed & result & _ & _ & _ & _ & Hrun) _].
  exists result. exact Hrun.
Defined.

(** The default object. *)
Lemma length_at_least_one_witness :
  produced (mkPoly [0] 1) /\
  1 <= size (mkPoly [0] 1) /\
  (1 <= length (coeffList (mkPoly [0%Z] 1%Z)))%nat.
Proof.
  assert (Hp : produced (mkPoly [0] 1)).
  { apply (produced_default junk). reflexivity. }
  split; [exact Hp|].
  destruct (length_at_least_one (mkPoly [0] 1) Hp) as (Hsz & _ & Hlen).
  split; [exact Hsz | exact Hlen].
Defined.

(** [p = p] for the object [2x + 1] at address 0. *)
Lemma self_assignment_unchanged_witness :
  (<[0%nat := mkPoly [1; 2] 2]> (∅ : gmap nat Poly)) !! 0%nat
    = Some (mkPoly [1; 2] 2) /\
  operator_assign junk 0 0 (<[0%nat := mkPoly [1; 2] 2]> ∅)
    = Some (<[0%nat := mkPoly [1; 2] 2]> ∅).
Proof.
  assert (Hp : (<[0%nat := mkPoly [1; 2] 2]> (∅ : gmap nat Poly)) !! 0%nat
               = Some (mkPoly [1; 2] 2)) by apply lookup_insert_eq.
  split; [exact Hp|].
  destruct (self_assignment_unchanged junk 0
              (<[0%nat := mkPoly [1; 2] 2]> ∅) (mkPoly [1; 2] 2) Hp)
    as (objs' & Hrun & Heq & _).
  rewrite Hrun. f_equal. exact Heq.
Defined.

(** * Further properties of the class *)

(** ** Coefficients as [getCoeff] reports them *)

Lemma getCoeff_coeff_of (p : Poly) (e : Z) :
  valid p -> getCoeff p e = Some (coeff_of p e).
Proof.
  intros [Hsz Hlen]. unfold getCoeff, coeff_of.
  destruct (decide (e >= size p \/ e < 0)) as [Hout|Hin].
  - by rewrite decide_False by lia.
  - rewrite decide_True by lia. unfold rd. rewrite decide_True by lia.
    apply coef_lookup. lia.
Qed.

Lemma agree_coeff_of (smaller larger : Poly) :
  valid smaller -> valid larger -> size smaller <= size larger ->
  agree smaller larger <->
  forall e, coeff_of smaller e = coeff_of larger e.
Proof.
  intros [Hs Hsl] [Hl Hll] Hle. unfold agree, coeff_of. split.
  - intros [Hcells Hzeros] e.
    destruct (decide (0 <= e < size smaller)) as [He|He].
    + rewrite decide_True by lia. unfold coef.
      rewrite <- (Hcells (Z.to_nat e)) by lia. done.
    + destruct (decide (0 <= e < size larger)) as [He'|He']; [|done].
      unfold coef. by rewrite (Hzeros (Z.to_nat e)) by lia.
  - intros Hall. split.
    + intros k Hk. specialize (Hall (Z.of_nat k)).
      rewrite !decide_True, Nat2Z.id in Hall by lia.
      rewrite (coef_lookup (coeffList smaller)) by lia.
      rewrite (coef_lookup (coeffList larger)) by lia. by f_equal.
    + intros k Hk. specialize (Hall (Z.of_nat k)).
      rewrite decide_False, decide_True, Nat2Z.id in Hall by lia.
      rewrite (coef_lookup (coeffList larger)) by lia. by f_equal.
Qed.

Lemma operator_eq_coeff_of (a b : Poly) :
  valid a -> valid b ->
  exists r,
    operator_eq a b = Some r /\
    (r = true <-> forall e, coeff_of a e = coeff_of b e).
Proof.
  intros Ha Hb. unfold operator_eq.
  destruct (decide (size a > size b)) as [Hgt|Hle].
  - destruct (compare_spec b a) as (r & -> & Hiff); [done | done | lia |].
    exists r. split; [done|]. rewrite Hiff, agree_coeff_of by (done || lia).
    split; intros H e; by rewrite H.
  - destruct (compare_spec a b) as (r & -> & Hiff); [done | done | lia |].
    exists r. split; [done|]. by rewrite Hiff, agree_coeff_of by (done || lia).
Qed.

Lemma operator_eq_true (a b : Poly) :
  valid a -> valid b ->
  operator_eq a b = Some true <-> forall e, coeff_of a e = coeff_of b e.
Proof.
  intros Ha Hb. destruct (operator_eq_coeff_of a b Ha Hb) as (r & -> & Hiff).
  rewrite <- Hiff. split; congruence.
Qed.

(** X1.  On valid objects [a == b] is [true] exactly when [getCoeff]
    returns the same coefficient for both at every exponent, negative ones
    and those beyond either size included. *)
Theorem operator_eq_iff_getCoeff (a b : Poly) :
  valid a -> valid b ->
  exists r,
    operator_eq a b = Some r /\
    (r = true <-> forall e, getCoeff a e = getCoeff b e).
Proof.
  intros Ha Hb. destruct (operator_eq_coeff_of a b Ha Hb) as (r & Hr & Hiff).
  exists r. split; [done|]. rewrite Hiff. split.
  - intros H e. by rewrite !getCoeff_coeff_of, H.
  - intros H e. specialize (H e). rewrite !getCoeff_coeff_of in H by done.
    congruence.
Qed.

(** X2.  [==] is an equivalence on valid objects: every object equals
    itself, the two orders of the operands give the same answer, and two
    objects equal to a third are equal. *)
Theorem operator_eq_equivalence (a b c : Poly) :
  valid a -> valid b -> valid c ->
  operator_eq a a = Some true /\
  operator_eq a b = operator_eq b a /\
  (operator_eq a b = Some true -> operator_eq b c = Some true ->
   operator_eq a c = Some true).
Proof.
  intros Ha Hb Hc. split; [|split].
  - by apply operator_eq_true.
  - destruct (operator_eq_coeff_of a b Ha Hb) as (r1 & -> & H1).
    destruct (operator_eq_coeff_of b a Hb Ha) as (r2 & -> & H2).
    f_equal. destruct r1, r2; try done.
    + symmetry. apply H2. intros e. symmetry. by apply H1.
    + apply H1. intros e. symmetry. by apply H2.
  - rewrite !operator_eq_true by done. intros H1 H2 e. by rewrite H1.
Qed.

(** ** [setCoeff] seen through [getCoeff] *)

Lemma setCoeff_coeff_of fresh (p : Poly) (c e : Z) :
  valid p -> Z.abs e < Int.INT_MAX ->
  exists p',
    setCoeff fresh p c e = Some p' /\ valid p' /\
    size p' = Z.max (size p) (Z.abs e + 1) /\
    forall k, coeff_of p' k = if decide (k = Z.abs e) then c else coeff_of p k.
Proof.
  intros Hp He. pose proof Hp as [Hsz Hlen].
  destruct (setCoeff_valid fresh p c e Hp He) as (p' & Hrun & Hp' & Hsz').
  exists p'. split; [done|]. split; [done|]. split; [done|].
  destruct (decide (Z.abs e < size p)) as [Hin|Hout].
  - rewrite setCoeff_inplace in Hrun by done. injection Hrun as <-.
    intros k. unfold coeff_of. simpl.
    destruct (decide (0 <= k < size p)) as [Hk|Hk].
    + unfold coef. destruct (decide (k = Z.abs e)) as [->|Hne].
      * by rewrite list_lookup_insert_eq by lia.
      * by rewrite list_lookup_insert_ne by lia.
    + by rewrite decide_False by lia.
  - destruct (setCoeff_grow fresh p c e) as (buf & Hrun' & Hl & Hcells);
      [done | lia |].
    rewrite Hrun' in Hrun. injection Hrun as <-.
    intros k. unfold coeff_of. simpl.
    destruct (decide (0 <= k < Z.abs e + 1)) as [Hk|Hk].
    + unfold coef at 1. rewrite Hcells, Z2Nat.id by lia.
      destruct (decide (k < size p)).
      * rewrite decide_False, decide_True by lia.
        by rewrite (coef_lookup (coeffList p)) by lia.
      * rewrite (decide_False (P := 0 <= k < size p)) by lia.
        destruct (decide (k < Z.abs e)).
        -- by rewrite decide_False by lia.
        -- by rewrite !decide_True by lia.
    + rewrite decide_False by lia. by rewrite decide_False by lia.
Qed.

(** X3.  After [setCoeff(c, e)], with [|e| + 1] an [int], [getCoeff]
    returns [c] at exponent [|e|] and, at every other exponent, what it
    returned before the call. *)
Theorem getCoeff_after_setCoeff fresh (p : Poly) (c e : Z) :
  valid p -> Z.abs e < Int.INT_MAX ->
  exists p',
    setCoeff fresh p c e = Some p' /\
    forall k, getCoeff p' k
              = if decide (k = Z.abs e) then Some c else getCoeff p k.
Proof.
  intros Hp He.
  destruct (setCoeff_coeff_of fresh p c e Hp He) as (p' & Hrun & Hp' & _ & Hc).
  exists p'. split; [done|]. intros k.
  rewrite !getCoeff_coeff_of, Hc by done. by case_decide.
Qed.

(** Two arrays with the same cells are the same array. *)
Lemma setCoeff_grow_unique fresh1 fresh2 (p : Poly) (c e : Z) :
  valid p -> size p <= Z.abs e < Int.INT_MAX ->
  setCoeff fresh1 p c e = setCoeff fresh2 p c e.
Proof.
  intros Hp He.
  destruct (setCoeff_grow fresh1 p c e Hp He) as (b1 & -> & Hl1 & Hc1).
  destruct (setCoeff_grow fresh2 p c e Hp He) as (b2 & -> & Hl2 & Hc2).
  f_equal. f_equal. apply list_eq. intros k. by rewrite Hc1, Hc2.
Qed.

(** X4.  A second [setCoeff] at the same exponent replaces the effect of
    the first: the object is the one that the second call alone would have
    made, so the size does not change after the first growth.  What the
    allocated storage held plays no part. *)
Theorem setCoeff_twice fresh1 fresh2 fresh3 (p : Poly) (c1 c2 e : Z) :
  valid p -> Z.abs e < Int.INT_MAX ->
  exists p2,
    (p1 ← setCoeff fresh1 p c1 e; setCoeff fresh2 p1 c2 e) = Some p2 /\
    setCoeff fresh3 p c2 e = Some p2.
Proof.
  intros Hp He. pose proof Hp as [Hsz Hlen].
  destruct (decide (Z.abs e < size p)) as [Hin|Hout].
  - rewrite !setCoeff_inplace by done. simpl.
    rewrite setCoeff_inplace; [|split; simpl; [done | by rewrite length_insert]
                                |done].
    simpl. eexists. split; [|done]. by rewrite list_insert_insert_eq.
  - destruct (setCoeff_grow fresh1 p c1 e) as (b1 & -> & Hl1 & Hc1);
      [done | lia |].
    destruct (setCoeff_grow fresh3 p c2 e) as (b3 & -> & Hl3 & Hc3);
      [done | lia |].
    simpl. rewrite setCoeff_inplace; [|split; simpl; lia | simpl; lia].
    simpl. eexists. split; [|done]. f_equal. f_equal.
    apply list_eq. intros k. rewrite Hc3.
    destruct (decide (k = Z.to_nat (Z.abs e))) as [->|Hne].
    + rewrite list_lookup_insert_eq by lia.
      rewrite decide_False, decide_False by lia. by rewrite decide_True by lia.
    + rewrite list_lookup_insert_ne by done. rewrite Hc1.
      repeat case_decide; try done; lia.
Qed.

(** X5.  Padding with zeros does not change what an object stands for:
    after [setCoeff(0, e)] at an exponent not below the size, with
    [|e| + 1] an [int], the object is longer and still [==] to what it
    was. *)
Theorem zero_padding_equal fresh (p : Poly) (e : Z) :
  valid p -> size p <= Z.abs e < Int.INT_MAX ->
  exists p',
    setCoeff fresh p 0 e = Some p' /\
    size p' = Z.abs e + 1 /\
    operator_eq p' p = Some true /\
    operator_eq p p' = Some true.
Proof.
  intros Hp He.
  destruct (setCoeff_coeff_of fresh p 0 e Hp) as (p' & Hrun & Hp' & Hsz & Hc);
    [lia|].
  exists p'. split; [done|]. split; [lia|].
  assert (Hsame : forall k, coeff_of p' k = coeff_of p k).
  { intros k. rewrite Hc. case_decide as Hk; [|done]. subst k.
    unfold coeff_of. destruct Hp as [? ?]. by rewrite decide_False by lia. }
  split; apply operator_eq_true; try done; intros k; by rewrite Hsame.
Qed.

(** ** The constructors *)

Lemma Poly_coeff_exp_size (e : Z) :
  Z.abs e < Int.INT_MAX ->
  (if decide (e < 0) then Int.add (Int.mul e (-1)) 1 else Int.add e 1)
  = Z.abs e + 1.
Proof.
  intros He. unfold Int.INT_MAX in He. case_decide.
  - unfold Int.mul, Int.add.
    rewrite (wrap_small (e * -1))
      by (unfold Int.in_range, Int.INT_MIN, Int.INT_MAX; lia).
    rewrite wrap_small
      by (unfold Int.in_range, Int.INT_MIN, Int.INT_MAX; lia). lia.
  - unfold Int.add.
    rewrite wrap_small
      by (unfold Int.in_range, Int.INT_MIN, Int.INT_MAX; lia). lia.
Qed.

Lemma Poly_coeff_exp_spec fresh (c e : Z) :
  Z.abs e < Int.INT_MAX ->
  Poly_coeff_exp fresh c e
  = Some (mkPoly (replicate (Z.to_nat (Z.abs e)) 0 ++ [c]) (Z.abs e + 1)).
Proof.
  intros He. unfold Poly_coeff_exp.
  rewrite Poly_coeff_exp_size by done. unfold Int.INT_MAX in He.
  assert (Int.sub (Z.abs e + 1) 1 = Z.abs e) as ->.
  { unfold Int.sub. rewrite wrap_small; [lia|].
    unfold Int.in_range, Int.INT_MIN, Int.INT_MAX. lia. }
  destruct (new_int_Some fresh (Z.abs e + 1)) as (b0 & -> & Hl0); [lia|].
  simpl.
  destruct (for_up_fill 0 0 (Z.abs e) b0) as (b1 & -> & Hl1 & Hc1);
    [lia | lia |].
  simpl. rewrite wr_in_bounds by lia. simpl. f_equal. f_equal.
  apply list_eq. intros k.
  destruct (decide (k = Z.to_nat (Z.abs e))) as [->|Hne].
  - rewrite list_lookup_insert_eq by lia.
    rewrite lookup_app_r by (rewrite length_replicate; lia).
    by rewrite length_replicate, Nat.sub_diag.
  - rewrite list_lookup_insert_ne by done. rewrite Hc1.
    destruct (decide (0 <= Z.of_nat k < Z.abs e)) as [Hk|Hk].
    + rewrite lookup_app_l by (rewrite length_replicate; lia).
      symmetry. apply lookup_replicate_2. lia.
    + rewrite !lookup_ge_None_2; [done | | lia].
      rewrite length_app, length_replicate. simpl. lia.
Qed.

(** X6.  [Poly(c, e)], with [|e| + 1] an [int], is the polynomial
    [c x^|e|]: [|e| + 1] cells, all zero but the last, which holds [c]; a
    negative exponent gives the same object as its absolute value, and the
    object is the one that [setCoeff(c, e)] makes of a default object. *)
Theorem Poly_coeff_exp_builds fresh1 fresh2 fresh3 (c e : Z) :
  Z.abs e < Int.INT_MAX ->
  exists p,
    Poly_coeff_exp fresh1 c e = Some p /\
    size p = Z.abs e + 1 /\
    coeffList p = replicate (Z.to_nat (Z.abs e)) 0 ++ [c] /\
    Poly_coeff_exp fresh2 c (- e) = Some p /\
    (d ← Poly_default fresh3; setCoeff fresh3 d c e) = Some p.
Proof.
  intros He. eexists. split; [by apply Poly_coeff_exp_spec|].
  split; [done|]. split; [done|]. split.
  - rewrite Poly_coeff_exp_spec by lia. by rewrite Z.abs_opp.
  - rewrite Poly_default_eq. simpl.
    destruct (decide (Z.abs e < 1)) as [Hz|Hnz].
    + rewrite setCoeff_inplace by (apply valid_singleton || done).
      simpl. by replace (Z.abs e) with 0 by lia.
    + destruct (setCoeff_grow fresh3 (mkPoly [0] 1) c e)
        as (buf & -> & Hl & Hc); [apply valid_singleton | simpl; lia |].
      f_equal. f_equal. apply list_eq. intros k. rewrite Hc. simpl.
      unfold Int.INT_MAX in He.
      destruct (decide (Z.of_nat k < 1)).
      * replace k with 0%nat by lia.
        rewrite lookup_app_l by (rewrite length_replicate; lia).
        symmetry. apply lookup_replicate_2. lia.
      * destruct (decide (Z.of_nat k < Z.abs e)).
        -- rewrite lookup_app_l by (rewrite length_replicate; lia).
           symmetry. apply lookup_replicate_2. lia.
        -- destruct (decide (Z.of_nat k = Z.abs e)) as [Hk|Hk].
           ++ rewrite lookup_app_r by (rewrite length_replicate; lia).
              rewrite length_replicate.
              by replace (k - Z.to_nat (Z.abs e))%nat with 0%nat by lia.
           ++ symmetry. apply lookup_ge_None_2.
              rewrite length_app, length_replicate. simpl. lia.
Qed.

Lemma Poly_copy_exact fresh (orig : Poly) :
  valid orig ->
  Poly_copy fresh orig
  = Some (mkPoly (take (Z.to_nat (size orig)) (coeffList orig)) (size orig)).
Proof.
  intros Ho. pose proof Ho as [Hsz Hlen].
  destruct (Poly_copy_spec fresh orig Ho) as (buf & -> & Hl & Hc).
  f_equal. f_equal. apply list_eq. intros k. rewrite lookup_take.
  case_decide as Hk.
  - apply Hc. lia.
  - apply lookup_ge_None_2. lia.
Qed.

Lemma coeff_of_take (p : Poly) (e : Z) :
  coeff_of (mkPoly (take (Z.to_nat (size p)) (coeffList p)) (size p)) e
  = coeff_of p e.
Proof.
  unfold coeff_of. simpl. case_decide; [|done].
  unfold coef. by rewrite lookup_take_lt by lia.
Qed.

(** X7.  The copy constructor on a valid object builds an object of the
    same size whose array has exactly [size] cells, the first [size] cells
    of the original (an array that [operator*=] left longer than [size] is
    not copied beyond it), and the copy is [==] to the original. *)
Theorem Poly_copy_equal fresh (orig : Poly) :
  valid orig ->
  exists copy,
    Poly_copy fresh orig = Some copy /\
    size copy = size orig /\
    coeffList copy = take (Z.to_nat (size orig)) (coeffList orig) /\
    Z.of_nat (length (coeffList copy)) = size orig /\
    operator_eq copy orig = Some true.
Proof.
  intros Ho. pose proof Ho as [Hsz Hlen].
  eexists. split; [by apply Poly_copy_exact|]. simpl.
  split; [done|]. split; [done|]. split; [rewrite length_take; lia|].
  apply operator_eq_true; [|done|].
  - split; simpl; [done|]. rewrite length_take. lia.
  - intros e. apply coeff_of_take.
Qed.

(** ** [operator+] and [operator-] *)

Lemma int_add_zero_r (x : Z) : Int.in_range x -> Int.add x 0 = x.
Proof. intros Hx. unfold Int.add. rewrite Z.add_0_r. by apply wrap_small. Qed.

Lemma int_add_zero_l (x : Z) : Int.in_range x -> Int.add 0 x = x.
Proof. intros Hx. unfold Int.add. by apply wrap_small. Qed.

Lemma int_sub_zero_r (x : Z) : Int.in_range x -> Int.sub x 0 = x.
Proof. intros Hx. unfold Int.sub. rewrite Z.sub_0_r. by apply wrap_small. Qed.

Lemma coeff_of_in_range (p : Poly) (e : Z) :
  cells_in_range p -> Int.in_range (coeff_of p e).
Proof.
  intros Hp. unfold coeff_of. case_decide as He.
  - apply Hp. lia.
  - unfold Int.in_range, Int.INT_MIN, Int.INT_MAX. lia.
Qed.

Lemma coeff_of_cell (buf : list Z) (n : Z) (f : nat -> Z) :
  n <= Z.of_nat (length buf) ->
  (forall k : nat, Z.of_nat k < n -> buf !! k = Some (f k)) ->
  forall e, coeff_of (mkPoly buf n) e
            = if decide (0 <= e < n) then f (Z.to_nat e) else 0.
Proof.
  intros Hlen Hcells e. unfold coeff_of. simpl. case_decide; [|done].
  unfold coef. by rewrite Hcells by lia.
Qed.

Lemma sum_cell_coeff_of (p q : Poly) (k : nat) :
  Z.of_nat k < Z.max (size p) (size q) ->
  sum_cell p q k
  = if decide (Z.of_nat k < size p /\ Z.of_nat k < size q)
    then Int.add (coeff_of p (Z.of_nat k)) (coeff_of q (Z.of_nat k))
    else if decide (Z.of_nat k < size p) then coeff_of p (Z.of_nat k)
    else coeff_of q (Z.of_nat k).
Proof.
  intros Hk. unfold sum_cell, coeff_of. rewrite Nat2Z.id.
  repeat case_decide; try done; lia.
Qed.

Lemma operator_add_coeff_of fresh (p q : Poly) :
  valid p -> valid q ->
  exists s,
    operator_add fresh p q = Some s /\ valid s /\
    size s = Z.max (size p) (size q) /\
    forall e,
      coeff_of s e
      = if decide (0 <= e < size p /\ e < size q)
        then Int.add (coeff_of p e) (coeff_of q e)
        else if decide (0 <= e < size p) then coeff_of p e
        else coeff_of q e.
Proof.
  intros Hp Hq. pose proof Hp as [Hps _]. pose proof Hq as [Hqs _].
  destruct (operator_add_spec fresh p q Hp Hq) as (buf & Hrun & Hl & Hc).
  eexists. split; [exact Hrun|]. split; [split; simpl; lia|].
  split; [done|]. intros e.
  rewrite (coeff_of_cell buf _ (sum_cell p q)) by (done || lia).
  destruct (decide (0 <= e < Z.max (size p) (size q))) as [He|He].
  - rewrite sum_cell_coeff_of, Z2Nat.id by lia.
    repeat case_decide; try done; lia.
  - rewrite decide_False by lia. rewrite decide_False by lia.
    unfold coeff_of. by rewrite decide_False by lia.
Qed.

(** X8.  [p + q] on valid operands returns an object whose size is the
    larger of the two sizes, with an array of exactly that many cells; the
    cell at each exponent is the sum in [int] arithmetic where both
    operands have a cell and the cell of the longer operand elsewhere.
    When the cells of the operands hold [int]s, [getCoeff] on the sum
    returns at every exponent the [int] sum of the two coefficients. *)
Theorem operator_add_sums fresh (p q : Poly) :
  valid p -> valid q ->
  exists s,
    operator_add fresh p q = Some s /\
    size s = Z.max (size p) (size q) /\
    Z.of_nat (length (coeffList s)) = size s /\
    (forall k : nat, Z.of_nat k < size s ->
       coeffList s !! k = Some (sum_cell p q k)) /\
    (cells_in_range p -> cells_in_range q ->
     forall e, getCoeff s e = Some (Int.add (coeff_of p e) (coeff_of q e))).
Proof.
  intros Hp Hq. pose proof Hp as [Hps _]. pose proof Hq as [Hqs _].
  destruct (operator_add_spec fresh p q Hp Hq) as (buf & Hrun & Hl & Hc).
  destruct (operator_add_coeff_of fresh p q Hp Hq) as (s & Hrun' & Hs & _ & Hco).
  rewrite Hrun in Hrun'. injection Hrun' as <-.
  eexists. split; [exact Hrun|]. simpl.
  split; [done|]. split; [lia|]. split; [done|].
  intros Hpr Hqr e. rewrite getCoeff_coeff_of, Hco by done. f_equal.
  pose proof (coeff_of_in_range p e Hpr). pose proof (coeff_of_in_range q e Hqr).
  repeat case_decide; try done.
  - replace (coeff_of q e) with 0
      by (unfold coeff_of; by rewrite decide_False by lia).
    by rewrite int_add_zero_r.
  - replace (coeff_of p e) with 0
      by (unfold coeff_of; by rewrite decide_False by lia).
    by rewrite int_add_zero_l.
Qed.

Lemma operator_sub_spec fresh (p q : Poly) :
  valid p -> valid q ->
  exists buf,
    operator_sub fresh p q
      = Some (mkPoly buf (Z.max (size p) (size q))) /\
    Z.of_nat (length buf) = Z.max (size p) (size q) /\
    forall k : nat, Z.of_nat k < Z.max (size p) (size q) ->
      buf !! k = Some (diff_cell p q k).
Proof.
  intros Hp Hq. pose proof Hp as [Hps Hpl]. pose proof Hq as [Hqs Hql].
  unfold operator_sub.
  destruct (Poly_copy_spec fresh p Hp) as (b0 & -> & Hl0 & Hc0). simpl.
  destruct (decide (size p < size q)) as [Hlt|Hge].
  - assert (Int.sub (size q) 1 = size q - 1) as ->.
    { apply wrap_small. unfold Int.in_range, Int.INT_MIN, Int.INT_MAX in *. lia. }
    destruct (setCoeff_grow fresh (mkPoly b0 (size p)) 0 (size q - 1))
      as (b1 & -> & Hl1 & Hc1).
    { split; simpl; lia. }
    { simpl. lia. }
    simpl in *. rewrite Z.abs_eq in * by lia.
    replace (size q - 1 + 1) with (size q) in * by lia.
    destruct (for_up_combine Int.sub (coeffList q) (size q) b1)
      as (b2 & -> & Hl2 & Hc2); [lia | lia |]. simpl.
    rewrite Z.max_r by lia. exists b2. split; [done|]. split; [lia|].
    intros k Hk. rewrite Hc2, Hc1. unfold diff_cell.
    rewrite !(decide_True (P := Z.of_nat k < size q)) by lia.
    rewrite (coef_lookup (coeffList q)) by lia.
    destruct (decide (Z.of_nat k < size p)).
    + rewrite Hc0 by lia. by rewrite (coef_lookup (coeffList p)) by lia.
    + destruct (decide (Z.of_nat k < size q - 1)); [done|].
      by rewrite decide_True by lia.
  - simpl.
    destruct (for_up_combine Int.sub (coeffList q) (size q) b0)
      as (b2 & -> & Hl2 & Hc2); [lia | lia |]. simpl.
    rewrite Z.max_l by lia. exists b2. split; [done|]. split; [lia|].
    intros k Hk. rewrite Hc2. unfold diff_cell.
    destruct (decide (Z.of_nat k < size q)).
    + rewrite decide_True by lia. rewrite Hc0 by lia.
      rewrite (coef_lookup (coeffList p)) by lia.
      by rewrite (coef_lookup (coeffList q)) by lia.
    + rewrite Hc0 by lia. apply coef_lookup. lia.
Qed.

Lemma operator_sub_coeff_of fresh (p q : Poly) :
  valid p -> valid q ->
  exists d,
    operator_sub fresh p q = Some d /\ valid d /\
    size d = Z.max (size p) (size q) /\
    forall e,
      coeff_of d e
      = if decide (0 <= e < size q)
        then Int.sub (coeff_of p e) (coeff_of q e)
        else coeff_of p e.
Proof.
  intros Hp Hq. pose proof Hp as [Hps _]. pose proof Hq as [Hqs _].
  destruct (operator_sub_spec fresh p q Hp Hq) as (buf & Hrun & Hl & Hc).
  eexists. split; [exact Hrun|]. split; [split; simpl; lia|].
  split; [done|]. intros e.
  rewrite (coeff_of_cell buf _ (diff_cell p q)) by (done || lia).
  unfold diff_cell, coeff_of.
  destruct (decide (0 <= e < Z.max (size p) (size q))) as [He|He].
  - rewrite Z2Nat.id by lia. repeat case_decide; try done; lia.
  - repeat case_decide; try done; lia.
Qed.

(** X9.  [p - q] on valid operands returns an object whose size is the
    larger of the two sizes, with an array of exactly that many cells:
    where [q] has a cell, the cell holds the [int] difference between the
    cell of [p], or zero when [p] has none, and the cell of [q]; elsewhere
    it holds the cell of [p].  When the cells of [p] hold [int]s,
    [getCoeff] on the difference returns at every exponent the [int]
    difference of the two coefficients. *)
Theorem operator_sub_subtracts fresh (p q : Poly) :
  valid p -> valid q ->
  exists d,
    operator_sub fresh p q = Some d /\
    size d = Z.max (size p) (size q) /\
    Z.of_nat (length (coeffList d)) = size d /\
    (forall k : nat, Z.of_nat k < size d ->
       coeffList d !! k = Some (diff_cell p q k)) /\
    (cells_in_range p ->
     forall e, getCoeff d e = Some (Int.sub (coeff_of p e) (coeff_of q e))).
Proof.
  intros Hp Hq. pose proof Hp as [Hps _]. pose proof Hq as [Hqs _].
  destruct (operator_sub_spec fresh p q Hp Hq) as (buf & Hrun & Hl & Hc).
  destruct (operator_sub_coeff_of fresh p q Hp Hq) as (d & Hrun' & Hd & _ & Hco).
  rewrite Hrun in Hrun'. injection Hrun' as <-.
  eexists. split; [exact Hrun|]. simpl.
  split; [done|]. split; [lia|]. split; [done|].
  intros Hpr e. rewrite getCoeff_coeff_of, Hco by done. f_equal.
  pose proof (coeff_of_in_range p e Hpr).
  case_decide; [done|].
  replace (coeff_of q e) with 0
    by (unfold coeff_of; by rewrite decide_False by lia).
  by rewrite int_sub_zero_r.
Qed.

(** ** [operator=] between two objects *)

(** X10.  [a = b] for two distinct objects, [b] valid: [a] becomes an
    object of the size of [b] whose array has exactly that many cells, the
    first [size] cells of [b], and is [==] to [b]; [b] and every other
    object of the store are as they were. *)
Theorem operator_assign_copies fresh (this rhs : nat)
    (objs : gmap nat Poly) (self other : Poly) :
  objs !! this = Some self -> objs !! rhs = Some other -> this ≠ rhs ->
  valid other ->
  exists self' objs',
    operator_assign fresh this rhs objs = Some objs' /\
    objs' !! this = Some self' /\
    size self' = size other /\
    coeffList self' = take (Z.to_nat (size other)) (coeffList other) /\
    operator_eq self' other = Some true /\
    forall a, a ≠ this -> objs' !! a = objs !! a.
Proof.
  intros Hself Hother Hne Hv. pose proof Hv as [Hsz Hlen].
  unfold operator_assign. rewrite Hself. simpl.
  rewrite decide_True by done. rewrite Hother. simpl.
  change (assign_from fresh self other) with (Poly_copy fresh other).
  rewrite Poly_copy_exact by done. simpl.
  do 2 eexists. split; [done|].
  split; [by rewrite lookup_insert_eq|]. simpl.
  split; [done|]. split; [done|]. split.
  - apply operator_eq_true; [|done|].
    + split; simpl; [done|]. rewrite length_take. lia.
    + intros e. apply coeff_of_take.
  - intros a Ha. by rewrite lookup_insert_ne.
Qed.

(** ** [operator+=] and [operator-=] *)

(** The two compound operators on a receiver that is not longer than the
    argument. *)
Lemma compound_spec fresh (op : Z -> Z -> Z) (this rhs : Poly) :
  valid this -> valid rhs -> size this <= size rhs ->
  exists buf,
    (this ← (if decide (size this < size rhs)
             then setCoeff fresh this 0 (Int.sub (size rhs) 1)
             else Some this);
     buf ← for_up 0 (size this)
              (fun i b => x ← rd b i; y ← rd (coeffList rhs) i;
                          wr b i (op x y))
              (coeffList this);
     Some (mkPoly buf (size this))) = Some (mkPoly buf (size rhs)) /\
    size rhs <= Z.of_nat (length buf) /\
    forall k : nat, Z.of_nat k < size rhs ->
      buf !! k = Some (op (coeff_of this (Z.of_nat k)) (coef (coeffList rhs) k)).
Proof.
  intros Hp Hq Hle. pose proof Hp as [Hps Hpl]. pose proof Hq as [Hqs Hql].
  destruct (decide (size this < size rhs)) as [Hlt|Hge].
  - assert (Int.sub (size rhs) 1 = size rhs - 1) as ->.
    { apply wrap_small. unfold Int.in_range, Int.INT_MIN, Int.INT_MAX in *. lia. }
    destruct (setCoeff_grow fresh this 0 (size rhs - 1))
      as (b1 & -> & Hl1 & Hc1); [done | lia |].
    simpl. rewrite Z.abs_eq in * by lia.
    replace (size rhs - 1 + 1) with (size rhs) in * by lia.
    destruct (for_up_combine op (coeffList rhs) (size rhs) b1)
      as (b2 & -> & Hl2 & Hc2); [lia | lia |]. simpl.
    exists b2. split; [done|]. split; [lia|].
    intros k Hk. rewrite Hc2, Hc1.
    rewrite (decide_True (P := Z.of_nat k < size rhs)) by lia.
    rewrite (coef_lookup (coeffList rhs)) by lia.
    unfold coeff_of. rewrite Nat2Z.id.
    destruct (decide (Z.of_nat k < size this)).
    + rewrite decide_True by lia.
      by rewrite (coef_lookup (coeffList this)) by lia.
    + rewrite (decide_False (P := 0 <= Z.of_nat k < size this)) by lia.
      destruct (decide (Z.of_nat k < size rhs - 1)); [done|].
      by rewrite decide_True by lia.
  - simpl. replace (size this) with (size rhs) by lia.
    destruct (for_up_combine op (coeffList rhs) (size rhs) (coeffList this))
      as (b2 & -> & Hl2 & Hc2); [lia | lia |]. simpl.
    exists b2. split; [done|]. split; [lia|].
    intros k Hk. rewrite Hc2. rewrite decide_True by lia.
    rewrite (coef_lookup (coeffList rhs)) by lia.
    rewrite (coef_lookup (coeffList this)) by lia. simpl.
    unfold coeff_of. by rewrite decide_True, Nat2Z.id by lia.
Qed.

(** X11.  [p += q] on valid objects with [p] not longer than [q]: [p]
    takes the size of [q] and each of its cells holds the [int] sum of the
    coefficient of [p] (zero from its old size on) and the cell of [q].
    When the cells of [q] hold [int]s the result is [==] to [p + q]. *)
Theorem operator_add_assign_adds fresh1 fresh2 (p q : Poly) :
  valid p -> valid q -> size p <= size q ->
  exists r,
    operator_add_assign fresh1 p q = Some r /\
    size r = size q /\
    (forall k : nat, Z.of_nat k < size q ->
       coeffList r !! k
       = Some (Int.add (coeff_of p (Z.of_nat k)) (coef (coeffList q) k))) /\
    (cells_in_range q ->
     exists s, operator_add fresh2 p q = Some s /\
               operator_eq r s = Some true).
Proof.
  intros Hp Hq Hle. pose proof Hp as [Hps _]. pose proof Hq as [Hqs _].
  destruct (compound_spec fresh1 Int.add p q Hp Hq Hle)
    as (buf & Hrun & Hl & Hc).
  exists (mkPoly buf (size q)). split; [exact Hrun|]. simpl.
  split; [done|]. split; [done|]. intros Hqr.
  destruct (operator_add_coeff_of fresh2 p q Hp Hq) as (s & Hs & Hvs & Hss & Hco).
  exists s. split; [done|]. apply operator_eq_true; [split; simpl; lia | done |].
  intros e. rewrite Hco.
  rewrite (coeff_of_cell buf _
             (fun k => Int.add (coeff_of p (Z.of_nat k)) (coef (coeffList q) k)))
    by done.
  pose proof (coeff_of_in_range q e Hqr) as Hr.
  unfold coeff_of in *.
  destruct (decide (0 <= e < size q)) as [He|He].
  - rewrite Z2Nat.id by lia.
    destruct (decide (0 <= e < size p)).
    + by rewrite decide_True by lia.
    + rewrite decide_False by lia. by rewrite int_add_zero_l.
  - rewrite decide_False by lia. by rewrite decide_False by lia.
Qed.

(** X12.  [p -= q] on valid objects with [p] not longer than [q]: [p]
    takes the size of [q], each of its cells holds the [int] difference of
    the coefficient of [p] (zero from its old size on) and the cell of
    [q], and the result is [==] to [p - q]. *)
Theorem operator_sub_assign_subtracts fresh1 fresh2 (p q : Poly) :
  valid p -> valid q -> size p <= size q ->
  exists r s,
    operator_sub_assign fresh1 p q = Some r /\
    size r = size q /\
    (forall k : nat, Z.of_nat k < size q ->
       coeffList r !! k
       = Some (Int.sub (coeff_of p (Z.of_nat k)) (coef (coeffList q) k))) /\
    operator_sub fresh2 p q = Some s /\
    operator_eq r s = Some true.
Proof.
  intros Hp Hq Hle. pose proof Hp as [Hps _]. pose proof Hq as [Hqs _].
  destruct (compound_spec fresh1 Int.sub p q Hp Hq Hle)
    as (buf & Hrun & Hl & Hc).
  destruct (operator_sub_coeff_of fresh2 p q Hp Hq) as (s & Hs & Hvs & Hss & Hco).
  exists (mkPoly buf (size q)), s. split; [exact Hrun|]. simpl.
  split; [done|]. split; [done|]. split; [done|].
  apply operator_eq_true; [split; simpl; lia | done |].
  intros e. rewrite Hco.
  rewrite (coeff_of_cell buf _
             (fun k => Int.sub (coeff_of p (Z.of_nat k)) (coef (coeffList q) k)))
    by done.
  unfold coeff_of.
  destruct (decide (0 <= e < size q)) as [He|He].
  - by rewrite Z2Nat.id by lia.
  - by rewrite decide_False by lia.
Qed.

(** A counted loop one of whose iterations fails on every state fails. *)
Lemma for_loop_fails {St : Type} (n : nat) (i step : Z)
    (body : Z -> St -> option St) (s : St) (j : nat) :
  (j < n)%nat -> (forall t, body (i + Z.of_nat j * step) t = None) ->
  for_loop n i step body s = None.
Proof.
  revert i s j. induction n as [|n IH]; intros i s j Hj Hfail; [lia|].
  simpl. destruct j as [|j].
  - replace (i + Z.of_nat 0 * step) with i in Hfail by lia.
    by rewrite Hfail.
  - destruct (body i s) as [s1|]; [|done]. simpl.
    apply (IH _ _ j); [lia|]. intros t. rewrite <- (Hfail t). f_equal. lia.
Qed.

(** X13.  [p += q] and [p -= q] on a receiver longer than the argument,
    when the array of the argument has exactly [size] cells (as every
    constructor and every operator but [*=] leaves it): the loop runs up to
    the size of [p] and reads [q.coeffList] beyond its last cell, so the
    run leaves defined behaviour. *)
Theorem compound_reads_past_argument fresh (p q : Poly) :
  valid p -> valid q -> size q < size p ->
  Z.of_nat (length (coeffList q)) = size q ->
  operator_add_assign fresh p q = None /\
  operator_sub_assign fresh p q = None.
Proof.
  intros [Hps Hpl] [Hqs Hql] Hlt Hexact.
  unfold operator_add_assign, operator_sub_assign.
  rewrite decide_False by lia. simpl. unfold for_up.
  split.
  - rewrite (for_loop_fails _ _ _ _ _ (Z.to_nat (size q))); [done | lia |].
    intros t. destruct (rd t _); [|done]. simpl.
    unfold rd. rewrite decide_True by lia.
    by rewrite lookup_ge_None_2 by lia.
  - rewrite (for_loop_fails _ _ _ _ _ (Z.to_nat (size q))); [done | lia |].
    intros t. destruct (rd t _); [|done]. simpl.
    unfold rd. rewrite decide_True by lia.
    by rewrite lookup_ge_None_2 by lia.
Qed.

(** ** [operator*=] in general *)

(** X14.  [p *= q] on valid objects whose product length is an [int],
    the allocated storage holding [int]s: [size] keeps the value it had,
    the array is replaced by one of [size p + size q - 1] cells, and each
    cell holds, reduced to [int], what the storage held plus the
    coefficient of the product; [getCoeff] therefore returns zero from
    exponent [size p] on, whatever the product is. *)
Theorem operator_mul_assign_general fresh (p q : Poly) :
  valid p -> valid q -> size p + size q - 1 <= Int.INT_MAX ->
  (forall cell, Int.in_range (fresh cell)) ->
  exists r,
    operator_mul_assign fresh p q = Some r /\
    size r = size p /\
    Z.of_nat (length (coeffList r)) = size p + size q - 1 /\
    (forall k : nat, Z.of_nat k < size p + size q - 1 ->
       coeffList r !! k
       = Some (Int.wrap (fresh k
                         + conv (coeffList p) (Z.to_nat (size p))
                                (coeffList q) (Z.to_nat (size q)) k))) /\
    (forall e, size p <= e -> getCoeff r e = Some 0).
Proof.
  intros Hp Hq Hmax Hfresh.
  destruct (operator_mul_assign_cells fresh p q Hp Hq Hmax Hfresh)
    as (buf & Hrun & Hl & Hc).
  eexists. split; [exact Hrun|]. simpl.
  split; [done|]. split; [done|]. split; [done|].
  intros e He. unfold getCoeff. simpl. by rewrite decide_True by lia.
Qed.

(** ** [operator<<] in general *)

(** X15.  [output << source] on a valid object appends to what [cout]
    held the text of the polynomial: its terms with a coefficient other
    than zero from the highest exponent down, each as a space, a [+] before
    a positive coefficient, the numeral, [x] from exponent 1 on and [^]
    with the exponent from exponent 2 on, or [" 0"] when every coefficient
    is zero.  It returns [output], and every stream other than [cout],
    [output] included, holds what it held. *)
Theorem operator_out_appends_format (output : ostream) (source : Poly)
    (w : ostream -> string) :
  valid source ->
  exists w',
    operator_out output source w = Some (output, w') /\
    w' cout = w cout +:+ format source /\
    forall s, s ≠ cout -> w' s = w s.
Proof. apply operator_out_text. Qed.

Lemma terms_text_ext (a b : list Z) (n : nat) :
  (forall k : nat, (k < n)%nat -> coef a k = coef b k) ->
  terms_text a n = terms_text b n.
Proof.
  induction n as [|n IH]; intros Hab; [done|]. simpl.
  rewrite IH by (intros k Hk; apply Hab; lia). by rewrite Hab by lia.
Qed.

Lemma terms_text_zeros (a : list Z) (n m : nat) :
  (n <= m)%nat ->
  (forall k : nat, (n <= k < m)%nat -> coef a k = 0) ->
  terms_text a m = terms_text a n.
Proof.
  intros Hnm. induction Hnm as [|m Hnm IH]; intros Hz; [done|]. simpl.
  rewrite decide_True by (apply Hz; lia). simpl.
  apply IH. intros k Hk. apply Hz. lia.
Qed.

Lemma coeff_of_nat (p : Poly) (k : nat) :
  Z.of_nat k < size p -> coeff_of p (Z.of_nat k) = coef (coeffList p) k.
Proof.
  intros Hk. unfold coeff_of. by rewrite decide_True, Nat2Z.id by lia.
Qed.

Lemma coeff_of_beyond (p : Poly) (e : Z) : size p <= e -> coeff_of p e = 0.
Proof. intros He. unfold coeff_of. by rewrite decide_False by lia. Qed.

Lemma all_zero_coeff_of (p : Poly) :
  valid p ->
  Forall (fun c => c = 0) (take (Z.to_nat (size p)) (coeffList p)) <->
  forall e, coeff_of p e = 0.
Proof.
  intros [Hsz Hlen]. rewrite all_zero_lookup by lia. split.
  - intros Hall e. unfold coeff_of. case_decide; [|done]. apply Hall. lia.
  - intros Hall k Hk. rewrite <- coeff_of_nat by lia. apply Hall.
Qed.

Lemma terms_text_coeff_of (p q : Poly) :
  valid p -> valid q -> size p <= size q ->
  (forall e, coeff_of p e = coeff_of q e) ->
  terms_text (coeffList p) (Z.to_nat (size p))
  = terms_text (coeffList q) (Z.to_nat (size q)).
Proof.
  intros [Hps _] [Hqs _] Hle Hsame.
  rewrite (terms_text_zeros (coeffList q) (Z.to_nat (size p))
             (Z.to_nat (size q))).
  - apply terms_text_ext. intros k Hk.
    rewrite <- !coeff_of_nat by lia. apply Hsame.
  - lia.
  - intros k Hk. rewrite <- coeff_of_nat by lia. rewrite <- Hsame.
    apply coeff_of_beyond. lia.
Qed.

Lemma format_coeff_of (p q : Poly) :
  valid p -> valid q -> (forall e, coeff_of p e = coeff_of q e) ->
  format p = format q.
Proof.
  intros Hp Hq Heq. unfold format.
  destruct (decide (Forall _ (take _ (coeffList p)))) as [Hzp|Hnp];
    destruct (decide (Forall _ (take _ (coeffList q)))) as [Hzq|Hnq].
  - done.
  - destruct Hnq. apply all_zero_coeff_of; [done|]. intros e.
    rewrite <- Heq. by apply all_zero_coeff_of.
  - destruct Hnp. apply all_zero_coeff_of; [done|]. intros e.
    rewrite Heq. by apply all_zero_coeff_of.
  - destruct (decide (size p <= size q)).
    + by apply terms_text_coeff_of.
    + symmetry. apply terms_text_coeff_of; [done | done | lia |].
      intros e. by rewrite Heq.
Qed.

(** X16.  Two valid objects that are [==] have the same text: trailing
    zero cells do not show in what [operator<<] writes. *)
Theorem format_respects_eq (p q : Poly) :
  valid p -> valid q -> operator_eq p q = Some true -> format p = format q.
Proof.
  intros Hp Hq Heq. rewrite operator_eq_true in Heq by done.
  by apply format_coeff_of.
Qed.

(** ** [operator>>] seen through [getCoeff] *)

Lemma apply_terms_coeff_of fresh (terms : list (Z * Z)) :
  Forall term_ok terms ->
  forall p, valid p ->
  exists p',
    apply_terms fresh terms p = Some p' /\ valid p' /\
    size p <= size p' /\
    forall k,
      coeff_of p' k
      = match last (filter (fun t : Z * Z => Z.abs t.2 = k) terms) with
        | Some t => t.1
        | None => coeff_of p k
        end.
Proof.
  induction 1 as [|[c e] terms (_ & _ & He) _ IH]; intros p Hp.
  - exists p. split; [done|]. split; [done|]. split; [lia | done].
  - simpl in He.
    destruct (setCoeff_coeff_of fresh p c e Hp He)
      as (p1 & Hrun & Hp1 & Hsz1 & Hc1).
    destruct (IH p1 Hp1) as (p' & Hrun' & Hp' & Hsz' & Hc').
    exists p'. simpl. rewrite Hrun. simpl.
    split; [done|]. split; [done|]. split; [lia|].
    intros k. rewrite Hc', Hc1, filter_cons. simpl.
    destruct (decide (Z.abs e = k)) as [<-|Hne].
    + rewrite last_cons. rewrite decide_True by done. by destruct (last _).
    + by rewrite decide_False by congruence.
Qed.

Lemma operator_in_apply fresh (terms : list (Z * Z)) (rest : list Z)
    (target : Poly) :
  valid target -> Forall term_ok terms ->
  exists zs,
    length zs = length (coeffList target) /\
    (forall k : nat, Z.of_nat k < size target -> zs !! k = Some 0) /\
    operator_in fresh (tokens terms ++ 0 :: 0 :: rest) target
    = t ← apply_terms fresh terms (mkPoly zs (size target)); Some (rest, t).
Proof.
  intros [Hsz Hlen] Hterms.
  destruct (for_up_fill 0 0 (size target) (coeffList target))
    as (zs & Hfill & Hlz & Hcz); [lia | lia |].
  exists zs. split; [done|]. split.
  { intros k Hk. rewrite Hcz. by rewrite decide_True by lia. }
  unfold operator_in. destruct terms as [|[c e] terms].
  - cbn [tokens app]. rewrite extract2_ints by apply in_range_zero.
    cbn [mbind option_bind]. rewrite Hfill.
    cbn [mbind option_bind]. by rewrite read_terms_stop.
  - apply Forall_cons in Hterms as [Hok Hterms].
    cbn [tokens app].
    rewrite extract2_ints
      by (apply Hok || exact (term_ok_exp_in_range c e Hok)).
    cbn [mbind option_bind]. rewrite Hfill.
    cbn [mbind option_bind].
    apply read_terms_spec; [done | apply Hok |].
    rewrite length_app, length_tokens. simpl. lia.
Qed.

(** X17.  After [operator>>] has read the pairs [terms], pairs of [int]s
    none of which is [0 0] and each with an exponent whose absolute value
    plus one is an [int], up to the [0 0] that follows them, [getCoeff]
    returns at every exponent the coefficient of the last pair whose
    exponent has that absolute value, and zero at an exponent that no pair
    names: a later pair replaces an earlier one, and nothing is left of
    what the target held.  The target is never shorter than it was. *)
Theorem operator_in_last_pair_wins fresh (terms : list (Z * Z))
    (rest : list Z) (target : Poly) :
  valid target -> Forall term_ok terms ->
  exists result,
    operator_in fresh (tokens terms ++ 0 :: 0 :: rest) target
      = Some (rest, result) /\
    size target <= size result /\
    forall k, getCoeff result k = Some (last_coeff terms k).
Proof.
  intros Hv Hterms. pose proof Hv as [Hsz Hlen].
  destruct (operator_in_apply fresh terms rest target Hv Hterms)
    as (zs & Hlz & Hcz & Hrun).
  assert (Hvz : valid (mkPoly zs (size target))) by (split; simpl; lia).
  destruct (apply_terms_coeff_of fresh terms Hterms _ Hvz)
    as (result & Hres & Hvr & Hszr & Hco).
  exists result. rewrite Hrun, Hres. split; [done|]. split; [done|].
  intros k. rewrite getCoeff_coeff_of, Hco by done. f_equal.
  unfold last_coeff. destruct (last _); [done|].
  unfold coeff_of. simpl. case_decide; [|done].
  unfold coef. by rewrite Hcz by lia.
Qed.

(** ** Products seen through [getCoeff] *)

Lemma conv_beyond (a : list Z) (n : nat) (b : list Z) (m : nat) (k : nat) :
  (n + m <= S k)%nat -> conv a n b m k = 0.
Proof.
  intros Hk. unfold conv.
  rewrite (Zsum_ext n _ (fun _ => 0)); [apply Zsum_zero|].
  intros i Hi. rewrite (Zsum_ext m _ (fun _ => 0)); [apply Zsum_zero|].
  intros j Hj. apply conv_term_miss. lia.
Qed.

Lemma operator_mul_coeff_of fresh (p q : Poly) :
  valid p -> valid q -> size p + size q - 1 <= Int.INT_MAX ->
  exists r,
    operator_mul fresh p q = Some r /\ valid r /\
    size r = size p + size q - 1 /\
    forall e,
      coeff_of r e
      = if decide (0 <= e)
        then Int.wrap (conv (coeffList p) (Z.to_nat (size p))
                            (coeffList q) (Z.to_nat (size q)) (Z.to_nat e))
        else 0.
Proof.
  intros Hp Hq Hmax. pose proof Hp as [Hps _]. pose proof Hq as [Hqs _].
  destruct (operator_mul_spec fresh p q Hp Hq Hmax) as (buf & Hrun & Hl & Hc).
  eexists. split; [exact Hrun|]. split; [split; simpl; lia|].
  split; [done|]. intros e.
  rewrite (coeff_of_cell buf _
    (fun k => Int.wrap (conv (coeffList p) (Z.to_nat (size p))
                             (coeffList q) (Z.to_nat (size q)) k)))
    by (done || lia).
  destruct (decide (0 <= e)) as [He|He].
  - case_decide; [done|]. by rewrite conv_beyond by lia.
  - by rewrite decide_False by lia.
Qed.

Lemma Zsum_pick (n k : nat) (f : nat -> Z) :
  Zsum n (fun i => if decide (i = k) then f i else 0)
  = if decide (k < n)%nat then f k else 0.
Proof.
  induction n as [|n IH]; cbn [Zsum].
  - by rewrite decide_False by lia.
  - rewrite IH. destruct (decide (n = k)) as [->|Hne].
    + rewrite decide_False by lia. rewrite decide_True by lia. lia.
    + destruct (decide (k < n)%nat).
      * rewrite decide_True by lia. lia.
      * rewrite decide_False by lia. lia.
Qed.

Lemma conv_constant (a : list Z) (n : nat) (c : Z) (k : nat) :
  conv a n [c] 1 k = if decide (k < n)%nat then coef a k * c else 0.
Proof.
  unfold conv. rewrite <- (Zsum_pick n k (fun i => coef a i * c)).
  apply Zsum_ext. intros i Hi. simpl. unfold conv_term.
  rewrite Nat.add_0_r. by case_decide.
Qed.

Lemma operator_mul_constant fresh (p : Poly) (c : Z) :
  valid p ->
  exists r,
    operator_mul fresh p (mkPoly [c] 1) = Some r /\ valid r /\
    size r = size p /\
    forall e, coeff_of r e = Int.mul (coeff_of p e) c.
Proof.
  intros Hp. pose proof Hp as [Hps Hpl].
  destruct (operator_mul_coeff_of fresh p (mkPoly [c] 1))
    as (r & Hrun & Hr & Hsz & Hco);
    [done | apply valid_singleton | simpl; lia |].
  exists r. split; [done|]. split; [done|]. split; [simpl in Hsz; lia|].
  intros e. rewrite Hco. simpl.
  change (Z.to_nat 1) with 1%nat. rewrite conv_constant.
  unfold coeff_of, Int.mul.
  destruct (decide (0 <= e)) as [He|He].
  - destruct (decide (Z.to_nat e < Z.to_nat (size p))%nat).
    + by rewrite decide_True by lia.
    + by rewrite decide_False by lia.
  - by rewrite decide_False by lia.
Qed.

(** X18.  Multiplying a valid object by a constant polynomial [c]
    multiplies every coefficient by [c] in [int] arithmetic and keeps the
    size. *)
Theorem operator_mul_by_constant fresh (p : Poly) (c : Z) :
  valid p ->
  exists r,
    operator_mul fresh p (mkPoly [c] 1) = Some r /\
    size r = size p /\
    forall e, getCoeff r e = Some (Int.mul (coeff_of p e) c).
Proof.
  intros Hp.
  destruct (operator_mul_constant fresh p c Hp) as (r & Hrun & Hr & Hsz & Hco).
  exists r. split; [done|]. split; [done|].
  intros e. by rewrite getCoeff_coeff_of, Hco.
Qed.

(** X19.  The constants 0 and 1 are neutral and 0 absorbs: for a valid
    object [p] whose cells hold [int]s, [p + 0 == p], [p * 1 == p] and
    [p * 0 == 0]. *)
Theorem neutral_constants fresh (p : Poly) :
  valid p -> cells_in_range p ->
  exists s m z,
    operator_add fresh p (mkPoly [0] 1) = Some s /\
    operator_eq s p = Some true /\
    operator_mul fresh p (mkPoly [1] 1) = Some m /\
    operator_eq m p = Some true /\
    operator_mul fresh p (mkPoly [0] 1) = Some z /\
    operator_eq z (mkPoly [0] 1) = Some true.
Proof.
  intros Hp Hr. pose proof Hp as [Hps _].
  destruct (operator_add_coeff_of fresh p (mkPoly [0] 1) Hp (valid_singleton 0))
    as (s & Hs & Hvs & _ & Hcs).
  destruct (operator_mul_constant fresh p 1 Hp) as (m & Hm & Hvm & _ & Hcm).
  destruct (operator_mul_constant fresh p 0 Hp) as (z & Hz & Hvz & _ & Hcz).
  exists s, m, z. split; [done|]. split; [|split; [done|split; [|split; [done|]]]].
  - apply operator_eq_true; [done | done |]. intros e. rewrite Hcs. simpl.
    pose proof (coeff_of_in_range p e Hr).
    destruct (decide (0 <= e < size p /\ e < 1)) as [He|He].
    + replace (coeff_of (mkPoly [0] 1) e) with 0
        by (by replace e with 0 by lia).
      by rewrite int_add_zero_r.
    + case_decide; [done|]. unfold coeff_of. simpl.
      rewrite (decide_False (P := 0 <= e < size p)) by lia.
      case_decide; [|done]. by replace e with 0 by lia.
  - apply operator_eq_true; [done | done |]. intros e. rewrite Hcm.
    unfold Int.mul. rewrite Z.mul_1_r. apply wrap_small.
    by apply coeff_of_in_range.
  - apply operator_eq_true; [done | apply valid_singleton |]. intros e.
    rewrite Hcz. unfold Int.mul. rewrite Z.mul_0_r.
    unfold coeff_of. simpl. case_decide; [|done].
    by replace e with 0 by lia.
Qed.

Lemma coeff_of_beyond_or_negative (p : Poly) (e : Z) :
  ~ 0 <= e < size p -> coeff_of p e = 0.
Proof. intros He. unfold coeff_of. by rewrite decide_False. Qed.

Lemma int_sub_as_add (x y : Z) : Int.sub x y = Int.add x (Int.mul y (-1)).
Proof.
  unfold Int.sub, Int.add, Int.mul. rewrite wrap_add_r. f_equal. lia.
Qed.

(** X20.  Subtracting is adding the negation: for valid [p] and [q],
    [p - q == p + q * (-1)], in [int] arithmetic and for operands of any
    two sizes. *)
Theorem operator_sub_as_add fresh1 fresh2 fresh3 (p q : Poly) :
  valid p -> valid q ->
  exists d n s,
    operator_sub fresh1 p q = Some d /\
    operator_mul fresh2 q (mkPoly [-1] 1) = Some n /\
    operator_add fresh3 p n = Some s /\
    operator_eq d s = Some true.
Proof.
  intros Hp Hq.
  destruct (operator_sub_coeff_of fresh1 p q Hp Hq) as (d & Hd & Hvd & _ & Hcd).
  destruct (operator_mul_constant fresh2 q (-1) Hq)
    as (n & Hn & Hvn & Hszn & Hcn).
  destruct (operator_add_coeff_of fresh3 p n Hp Hvn) as (s & Hs & Hvs & _ & Hcs).
  exists d, n, s. split; [done|]. split; [done|]. split; [done|].
  apply operator_eq_true; [done | done |]. intros e.
  rewrite Hcd, Hcs, Hszn, Hcn.
  destruct (decide (0 <= e < size q)) as [Heq|Heq].
  - destruct (decide (0 <= e < size p)) as [Hep|Hep].
    + rewrite decide_True by lia. apply int_sub_as_add.
    + rewrite decide_False by lia.
      rewrite (coeff_of_beyond_or_negative p e) by lia.
      unfold Int.sub, Int.mul. f_equal. lia.
  - destruct (decide (0 <= e < size p)) as [Hep|Hep].
    + by rewrite decide_False by lia.
    + rewrite decide_False by lia.
      rewrite (coeff_of_beyond_or_negative p e) by lia.
      rewrite (coeff_of_beyond_or_negative q e) by lia. done.
Qed.

(** ** Laws of addition and subtraction *)

(** X21.  A valid object minus itself is the zero polynomial: the
    difference keeps the size, holds zero in every cell, is [==] to the
    constant 0 and is written as [" 0"]. *)
Theorem operator_sub_self fresh (p : Poly) :
  valid p ->
  exists d,
    operator_sub fresh p p = Some d /\
    size d = size p /\
    (forall e, getCoeff d e = Some 0) /\
    operator_eq d (mkPoly [0] 1) = Some true /\
    format d = " 0".
Proof.
  intros Hp.
  destruct (operator_sub_coeff_of fresh p p Hp Hp) as (d & Hd & Hvd & Hsz & Hco).
  assert (Hzero : forall e, coeff_of d e = 0).
  { intros e. rewrite Hco. case_decide as He.
    - unfold Int.sub. by rewrite Z.sub_diag.
    - by apply coeff_of_beyond_or_negative. }
  assert (Hconst : forall e, coeff_of d e = coeff_of (mkPoly [0] 1) e).
  { intros e. rewrite Hzero. unfold coeff_of. simpl. case_decide; [|done].
    by replace e with 0 by lia. }
  exists d. split; [done|]. split; [lia|]. split; [|split].
  - intros e. by rewrite getCoeff_coeff_of, Hzero.
  - by apply operator_eq_true; [| apply valid_singleton |].
  - by rewrite (format_coeff_of d (mkPoly [0] 1));
      [| | apply valid_singleton |].
Qed.

Lemma int_add_assoc (x y z : Z) :
  Int.add (Int.add x y) z = Int.add x (Int.add y z).
Proof.
  unfold Int.add. rewrite wrap_add_l, wrap_add_r. f_equal. lia.
Qed.

(** X22.  Addition is associative: for valid [p], [q] and [r] of any
    sizes, [(p + q) + r == p + (q + r)], in [int] arithmetic. *)
Theorem operator_add_associative fresh (p q r : Poly) :
  valid p -> valid q -> valid r ->
  exists pq qr left right,
    operator_add fresh p q = Some pq /\
    operator_add fresh pq r = Some left /\
    operator_add fresh q r = Some qr /\
    operator_add fresh p qr = Some right /\
    operator_eq left right = Some true.
Proof.
  intros Hp Hq Hr.
  destruct (operator_add_coeff_of fresh p q Hp Hq)
    as (pq & Hpq & Hvpq & Hspq & Hcpq).
  destruct (operator_add_coeff_of fresh pq r Hvpq Hr)
    as (left & Hleft & Hvl & _ & Hcl).
  destruct (operator_add_coeff_of fresh q r Hq Hr)
    as (qr & Hqr & Hvqr & Hsqr & Hcqr).
  destruct (operator_add_coeff_of fresh p qr Hp Hvqr)
    as (right & Hright & Hvr & _ & Hcr).
  exists pq, qr, left, right. do 4 (split; [done|]).
  apply operator_eq_true; [done | done |]. intros e.
  rewrite Hcl, Hcr, Hcpq, Hcqr, Hspq, Hsqr.
  repeat case_decide; try done; try lia; apply int_add_assoc.
Qed.

(** ** Associativity of the product *)

Lemma wrap_shift (z k : Z) : Int.wrap (z + k * 4294967296) = Int.wrap z.
Proof.
  unfold Int.wrap. f_equal.
  replace (z + k * 4294967296 + 2147483648)
    with (z + 2147483648 + k * 4294967296) by lia.
  apply Z_mod_plus_full.
Qed.

Lemma wrap_mul_l (x y : Z) : Int.wrap (Int.wrap x * y) = Int.wrap (x * y).
Proof.
  assert (Hrepr : Int.wrap x
            = x + - ((x + 2147483648) `div` 4294967296) * 4294967296).
  { unfold Int.wrap. rewrite Z.mod_eq by lia. lia. }
  rewrite Hrepr.
  replace ((x + - ((x + 2147483648) `div` 4294967296) * 4294967296) * y)
    with (x * y + (- ((x + 2147483648) `div` 4294967296) * y) * 4294967296)
    by lia.
  apply wrap_shift.
Qed.

Lemma wrap_mul_r (x y : Z) : Int.wrap (x * Int.wrap y) = Int.wrap (x * y).
Proof. rewrite (Z.mul_comm x), wrap_mul_l. f_equal. lia. Qed.

Lemma wrap_Zsum_ext (n : nat) (f g : nat -> Z) :
  (forall i, (i < n)%nat -> Int.wrap (f i) = Int.wrap (g i)) ->
  Int.wrap (Zsum n f) = Int.wrap (Zsum n g).
Proof.
  induction n as [|n IH]; intros Hfg; [done|]. simpl.
  rewrite <- wrap_add_l, <- wrap_add_r.
  rewrite IH by (intros i Hi; apply Hfg; lia). rewrite Hfg by lia.
  by rewrite wrap_add_l, wrap_add_r.
Qed.

Lemma Zsum_scale (n : nat) (f : nat -> Z) (w : Z) :
  Zsum n f * w = Zsum n (fun i => f i * w).
Proof. induction n as [|n IH]; simpl; [done|]. rewrite <- IH. lia. Qed.

Lemma Zsum_pick_sum (n s : nat) (f : nat -> Z) :
  (s < n)%nat ->
  Zsum n (fun i => if decide (s = i) then f i else 0) = f s.
Proof.
  intros Hs.
  rewrite (Zsum_ext n _ (fun i => if decide (i = s) then f i else 0)).
  - rewrite Zsum_pick. by rewrite decide_True.
  - intros i _. repeat case_decide; done || lia.
Qed.

(** A sum over [i] of sums over the pairs [x + y = i] is a sum over all
    pairs. *)
Lemma Zsum_regroup (P : nat -> Prop) {Pdec : forall i, Decision (P i)}
    (phi : nat -> nat -> Z) (n m len : nat) (w : Z) :
  (n + m <= S len)%nat ->
  Zsum len (fun i =>
    if decide (P i)
    then Zsum n (fun x => Zsum m (fun y =>
           if decide (x + y = i)%nat then phi x y else 0)) * w
    else 0)
  = Zsum n (fun x => Zsum m (fun y =>
      if decide (P (x + y)%nat) then phi x y * w else 0)).
Proof.
  intros Hlen.
  rewrite (Zsum_ext len _
    (fun i => Zsum n (fun x => Zsum m (fun y =>
       if decide (x + y = i)%nat
       then (if decide (P i) then phi x y * w else 0) else 0)))).
  - rewrite Zsum_swap. apply Zsum_ext. intros x Hx.
    rewrite Zsum_swap. apply Zsum_ext. intros y Hy.
    rewrite (Zsum_pick_sum len (x + y)
               (fun i => if decide (P i) then phi x y * w else 0)); [done|lia].
  - intros i _. case_decide.
    + rewrite Zsum_scale. apply Zsum_ext. intros x _.
      rewrite Zsum_scale. apply Zsum_ext. intros y _.
      case_decide; lia.
    + symmetry. rewrite (Zsum_ext n _ (fun _ => 0)); [apply Zsum_zero|].
      intros x _. rewrite (Zsum_ext m _ (fun _ => 0)); [apply Zsum_zero|].
      intros y _. by case_decide.
Qed.

(** The two ways of multiplying three polynomials give, at exponent [k],
    the sum of [f x * g y * h z] over [x + y + z = k]. *)
Lemma conv_left_nested (f g h : nat -> Z) (n m l k : nat) :
  Zsum (n + m - 1) (fun i => Zsum l (fun z =>
    if decide (i + z = k)%nat
    then Zsum n (fun x => Zsum m (fun y =>
           if decide (x + y = i)%nat then f x * g y else 0)) * h z
    else 0))
  = Zsum n (fun x => Zsum m (fun y => Zsum l (fun z =>
      if decide (x + y + z = k)%nat then f x * g y * h z else 0))).
Proof.
  rewrite Zsum_swap.
  rewrite (Zsum_ext l _
    (fun z => Zsum n (fun x => Zsum m (fun y =>
       if decide (x + y + z = k)%nat then f x * g y * h z else 0)))).
  - rewrite Zsum_swap. apply Zsum_ext. intros x _. by rewrite Zsum_swap.
  - intros z _.
    apply (Zsum_regroup (fun i => (i + z = k)%nat)
             (Pdec := fun i => Nat.eq_dec (i + z)%nat k)
             (fun x y => f x * g y) n m (n + m - 1) (h z)). lia.
Qed.

Lemma conv_right_nested (f g h : nat -> Z) (n m l k : nat) :
  Zsum n (fun x => Zsum (m + l - 1) (fun j =>
    if decide (x + j = k)%nat
    then f x * Zsum m (fun y => Zsum l (fun z =>
           if decide (y + z = j)%nat then g y * h z else 0))
    else 0))
  = Zsum n (fun x => Zsum m (fun y => Zsum l (fun z =>
      if decide (x + y + z = k)%nat then f x * g y * h z else 0))).
Proof.
  apply Zsum_ext. intros x _.
  rewrite (Zsum_ext (m + l - 1) _
    (fun j =>
       if decide (x + j = k)%nat
       then Zsum m (fun y => Zsum l (fun z =>
              if decide (y + z = j)%nat then g y * h z else 0)) * f x
       else 0)) by (intros j _; case_decide; lia).
  etrans.
  { apply (Zsum_regroup (fun j => (x + j = k)%nat)
             (Pdec := fun j => Nat.eq_dec (x + j)%nat k)
             (fun y z => g y * h z) m l (m + l - 1) (f x)). lia. }
  apply Zsum_ext. intros y _. apply Zsum_ext. intros z _.
  repeat case_decide; lia.
Qed.

Lemma wrap_idemp (z : Z) : Int.wrap (Int.wrap z) = Int.wrap z.
Proof. apply wrap_small, wrap_in_range. Qed.

Lemma conv_wrap_ext (a b : list Z) (f g : nat -> Z) (n m k : nat) :
  (forall i, (i < n)%nat -> Int.wrap (coef a i) = Int.wrap (f i)) ->
  (forall j, (j < m)%nat -> Int.wrap (coef b j) = Int.wrap (g j)) ->
  Int.wrap (conv a n b m k)
  = Int.wrap (Zsum n (fun i => Zsum m (fun j =>
      if decide (i + j = k)%nat then f i * g j else 0))).
Proof.
  intros Hf Hg. unfold conv. apply wrap_Zsum_ext. intros i Hi.
  apply wrap_Zsum_ext. intros j Hj. unfold conv_term.
  case_decide; [|done].
  rewrite <- wrap_mul_l, <- wrap_mul_r, Hf, Hg by done.
  by rewrite wrap_mul_l, wrap_mul_r.
Qed.

(** X23.  The product is associative: for valid [p], [q] and [r] whose
    triple product length [size p + size q + size r - 2] is an [int],
    [(p * q) * r == p * (q * r)], in [int] arithmetic. *)
Theorem operator_mul_associative fresh (p q r : Poly) :
  valid p -> valid q -> valid r ->
  size p + size q + size r - 2 <= Int.INT_MAX ->
  exists pq qr left right,
    operator_mul fresh p q = Some pq /\
    operator_mul fresh pq r = Some left /\
    operator_mul fresh q r = Some qr /\
    operator_mul fresh p qr = Some right /\
    operator_eq left right = Some true.
Proof.
  intros Hp Hq Hr Hmax.
  pose proof Hp as [Hps _]. pose proof Hq as [Hqs _]. pose proof Hr as [Hrs _].
  destruct (operator_mul_coeff_of fresh p q Hp Hq)
    as (pq & Hpq & Hvpq & Hspq & Hcpq); [lia|].
  destruct (operator_mul_coeff_of fresh pq r Hvpq Hr)
    as (left & Hleft & Hvl & _ & Hcl); [lia|].
  destruct (operator_mul_coeff_of fresh q r Hq Hr)
    as (qr & Hqr & Hvqr & Hsqr & Hcqr); [lia|].
  destruct (operator_mul_coeff_of fresh p qr Hp Hvqr)
    as (right & Hright & Hvr & _ & Hcr); [lia|].
  exists pq, qr, left, right. do 4 (split; [done|]).
  apply operator_eq_true; [done | done |]. intros e.
  rewrite Hcl, Hcr. case_decide as He; [|done].
  set (n := Z.to_nat (size p)). set (m := Z.to_nat (size q)).
  set (l := Z.to_nat (size r)). set (k := Z.to_nat e).
  set (f := coef (coeffList p)). set (g := coef (coeffList q)).
  set (h := coef (coeffList r)).
  replace (Z.to_nat (size pq)) with (n + m - 1)%nat by lia.
  replace (Z.to_nat (size qr)) with (m + l - 1)%nat by lia.
  rewrite (conv_wrap_ext (coeffList pq) (coeffList r)
             (fun i => Zsum n (fun x => Zsum m (fun y =>
                if decide (x + y = i)%nat then f x * g y else 0))) h).
  2: { intros i Hi. rewrite <- coeff_of_nat by lia. rewrite Hcpq.
       rewrite decide_True, Nat2Z.id by lia. apply wrap_idemp. }
  2: done.
  rewrite (conv_wrap_ext (coeffList p) (coeffList qr) f
             (fun j => Zsum m (fun y => Zsum l (fun z =>
                if decide (y + z = j)%nat then g y * h z else 0)))).
  2: done.
  2: { intros j Hj. rewrite <- coeff_of_nat by lia. rewrite Hcqr.
       rewrite decide_True, Nat2Z.id by lia. apply wrap_idemp. }
  f_equal. rewrite conv_left_nested, conv_right_nested. done.
Qed.

(** ** The product distributes over the sum *)

Lemma Zsum_extend (n len : nat) (f : nat -> Z) :
  (n <= len)%nat -> (forall i, (n <= i < len)%nat -> f i = 0) ->
  Zsum len f = Zsum n f.
Proof.
  intros Hle. induction Hle as [|len Hle IH]; intros Hz; [done|]. simpl.
  rewrite Hz by lia. rewrite IH by (intros i Hi; apply Hz; lia). lia.
Qed.

Lemma conv_zero_extended (a b : list Z) (n m len : nat) (k : nat) (q : Poly) :
  coeffList q = b -> Z.to_nat (size q) = m -> (m <= len)%nat ->
  Zsum n (fun i => Zsum len (fun j =>
    if decide (i + j = k)%nat
    then coef a i * coeff_of q (Z.of_nat j) else 0))
  = conv a n b m k.
Proof.
  intros <- <- Hle. unfold conv. apply Zsum_ext. intros i _.
  rewrite (Zsum_extend (Z.to_nat (size q)) len); [|done|].
  - apply Zsum_ext. intros j Hj. unfold conv_term.
    by rewrite coeff_of_nat by lia.
  - intros j Hj. rewrite coeff_of_beyond by lia. case_decide; lia.
Qed.

(** X24.  The product distributes over the sum: for valid [p], [q] and
    [r] such that the length of [p * (q + r)] is an [int],
    [p * (q + r) == p * q + p * r], in [int] arithmetic and for [q] and [r]
    of any two sizes. *)
Theorem operator_mul_distributes fresh (p q r : Poly) :
  valid p -> valid q -> valid r ->
  size p + Z.max (size q) (size r) - 1 <= Int.INT_MAX ->
  exists qr left pq pr right,
    operator_add fresh q r = Some qr /\
    operator_mul fresh p qr = Some left /\
    operator_mul fresh p q = Some pq /\
    operator_mul fresh p r = Some pr /\
    operator_add fresh pq pr = Some right /\
    operator_eq left right = Some true.
Proof.
  intros Hp Hq Hr Hmax.
  pose proof Hp as [Hps _]. pose proof Hq as [Hqs _]. pose proof Hr as [Hrs _].
  destruct (operator_add_coeff_of fresh q r Hq Hr)
    as (qr & Hqr & Hvqr & Hsqr & Hcqr).
  destruct (operator_mul_coeff_of fresh p qr Hp Hvqr)
    as (left & Hleft & Hvl & _ & Hcl); [lia|].
  destruct (operator_mul_coeff_of fresh p q Hp Hq)
    as (pq & Hpq & Hvpq & Hspq & Hcpq); [lia|].
  destruct (operator_mul_coeff_of fresh p r Hp Hr)
    as (pr & Hpr & Hvpr & Hspr & Hcpr); [lia|].
  destruct (operator_add_coeff_of fresh pq pr Hvpq Hvpr)
    as (right & Hright & Hvr & _ & Hcr).
  exists qr, left, pq, pr, right. do 5 (split; [done|]).
  apply operator_eq_true; [done | done |]. intros e.
  rewrite Hcl, Hcr, Hcpq, Hcpr.
  destruct (decide (0 <= e)) as [He|He].
  2: { repeat case_decide; done || lia. }
  set (n := Z.to_nat (size p)). set (m := Z.to_nat (size q)).
  set (l := Z.to_nat (size r)). set (k := Z.to_nat e).
  set (len := Z.to_nat (size qr)).
  set (A := conv (coeffList p) n (coeffList q) m k).
  set (B := conv (coeffList p) n (coeffList r) l k).
  assert (Hright' :
    (if decide (0 <= e < size pq /\ e < size pr)
     then Int.add (Int.wrap A) (Int.wrap B)
     else if decide (0 <= e < size pq) then Int.wrap A else Int.wrap B)
    = Int.wrap (A + B)).
  { unfold Int.add. rewrite wrap_add_l, wrap_add_r.
    repeat case_decide; try done.
    - subst B. rewrite conv_beyond by lia. by rewrite Z.add_0_r.
    - subst A. rewrite conv_beyond by lia. done. }
  rewrite Hright'.
  rewrite (conv_wrap_ext (coeffList p) (coeffList qr)
             (coef (coeffList p))
             (fun j => coeff_of q (Z.of_nat j) + coeff_of r (Z.of_nat j)));
    [|done|].
  - f_equal.
    rewrite (Zsum_ext n _
      (fun i =>
         Zsum len (fun j => if decide (i + j = k)%nat
                            then coef (coeffList p) i * coeff_of q (Z.of_nat j)
                            else 0)
         + Zsum len (fun j => if decide (i + j = k)%nat
                              then coef (coeffList p) i * coeff_of r (Z.of_nat j)
                              else 0))).
    + rewrite Zsum_add. subst A B.
      rewrite (conv_zero_extended _ (coeffList q) n m len k q) by (done || lia).
      by rewrite (conv_zero_extended _ (coeffList r) n l len k r)
        by (done || lia).
    + intros i _. rewrite <- Zsum_add. apply Zsum_ext. intros j _.
      destruct (decide (i + j = k)%nat); lia.
  - intros j Hj. rewrite <- coeff_of_nat by lia. rewrite Hcqr.
    unfold Int.add.
    destruct (decide (0 <= Z.of_nat j < size q /\ Z.of_nat j < size r));
      [apply wrap_idemp|].
    destruct (decide (0 <= Z.of_nat j < size q)).
    + rewrite (coeff_of_beyond r) by lia. by rewrite Z.add_0_r.
    + rewrite (coeff_of_beyond q) by lia. done.
Qed.

(** ** The further properties at sample inputs *)

Lemma cells_sample (a : list Z) (n : Z) :
  Forall Int.in_range a -> cells_in_range (mkPoly a n).
Proof.
  intros Ha k _. simpl. unfold coef.
  destruct (a !! k) as [x|] eqn:Hx; simpl.
  - exact (Forall_lookup_1 _ _ _ _ Ha Hx).
  - unfold Int.in_range, Int.INT_MIN, Int.INT_MAX. lia.
Defined.

Lemma in_range_sample (z : Z) :
  -2147483648 <= z -> z <= 2147483647 -> Int.in_range z.
Proof. intros H1 H2. split; assumption. Defined.

(** [2] against [2 + 0x]. *)
Lemma operator_eq_iff_getCoeff_witness :
  valid (mkPoly [2] 1) /\ valid (mkPoly [2; 0] 2) /\
  exists r, operator_eq (mkPoly [2] 1) (mkPoly [2; 0] 2) = Some r /\
    (r = true <->
     forall e, getCoeff (mkPoly [2] 1) e = getCoeff (mkPoly [2; 0] 2) e).
Proof.
  assert (Ha : valid (mkPoly [2] 1)) by (apply valid_sample; simpl; lia).
  assert (Hb : valid (mkPoly [2; 0] 2)) by (apply valid_sample; simpl; lia).
  split; [exact Ha|]. split; [exact Hb|].
  exact (operator_eq_iff_getCoeff (mkPoly [2] 1) (mkPoly [2; 0] 2) Ha Hb).
Defined.

(** [2], [2 + 0x] and [2 + 0x + 0x^2]. *)
Lemma operator_eq_equivalence_witness :
  valid (mkPoly [2] 1) /\ valid (mkPoly [2; 0] 2) /\
  valid (mkPoly [2; 0; 0] 3) /\
  operator_eq (mkPoly [2] 1) (mkPoly [2; 0] 2)
    = operator_eq (mkPoly [2; 0] 2) (mkPoly [2] 1) /\
  operator_eq (mkPoly [2] 1) (mkPoly [2; 0; 0] 3) = Some true.
Proof.
  assert (Ha : valid (mkPoly [2] 1)) by (apply valid_sample; simpl; lia).
  assert (Hb : valid (mkPoly [2; 0] 2)) by (apply valid_sample; simpl; lia).
  assert (Hc : valid (mkPoly [2; 0; 0] 3)) by (apply valid_sample; simpl; lia).
  split; [exact Ha|]. split; [exact Hb|]. split; [exact Hc|].
  destruct (operator_eq_equivalence (mkPoly [2] 1) (mkPoly [2; 0] 2)
              (mkPoly [2; 0; 0] 3) Ha Hb Hc) as (_ & Hsym & Htrans).
  split; [exact Hsym|]. apply Htrans; reflexivity.
Defined.

(** [setCoeff(9, -4)] on [1 + 2x], then [getCoeff(1)]. *)
Lemma getCoeff_after_setCoeff_witness :
  valid (mkPoly [1; 2] 2) /\ Z.abs (-4) < Int.INT_MAX /\
  exists p', setCoeff junk (mkPoly [1; 2] 2) 9 (-4) = Some p' /\
             getCoeff p' 1 = Some 2.
Proof.
  assert (Hv : valid (mkPoly [1; 2] 2)) by (apply valid_sample; simpl; lia).
  assert (He : Z.abs (-4) < Int.INT_MAX) by (unfold Int.INT_MAX; simpl; lia).
  split; [exact Hv|]. split; [exact He|].
  destruct (getCoeff_after_setCoeff junk (mkPoly [1; 2] 2) 9 (-4) Hv He)
    as (p' & Hrun & Hget).
  exists p'. split; [exact Hrun|]. exact (Hget 1).
Defined.

(** [setCoeff(9, 4)] then [setCoeff(7, 4)] on [1 + 2x]. *)
Lemma setCoeff_twice_witness :
  valid (mkPoly [1; 2] 2) /\ Z.abs 4 < Int.INT_MAX /\
  exists p2,
    (p1 ← setCoeff junk (mkPoly [1; 2] 2) 9 4; setCoeff junk p1 7 4)
      = Some p2 /\
    setCoeff (fun _ => 0) (mkPoly [1; 2] 2) 7 4 = Some p2.
Proof.
  assert (Hv : valid (mkPoly [1; 2] 2)) by (apply valid_sample; simpl; lia).
  assert (He : Z.abs 4 < Int.INT_MAX) by (unfold Int.INT_MAX; simpl; lia).
  split; [exact Hv|]. split; [exact He|].
  exact (setCoeff_twice junk junk (fun _ => 0) (mkPoly [1; 2] 2) 9 7 4 Hv He).
Defined.

(** [setCoeff(0, 3)] on [1 + 2x]. *)
Lemma zero_padding_equal_witness :
  valid (mkPoly [1; 2] 2) /\
  size (mkPoly [1; 2] 2) <= Z.abs 3 < Int.INT_MAX /\
  exists p', setCoeff junk (mkPoly [1; 2] 2) 0 3 = Some p' /\
             operator_eq p' (mkPoly [1; 2] 2) = Some true.
Proof.
  assert (Hv : valid (mkPoly [1; 2] 2)) by (apply valid_sample; simpl; lia).
  assert (He : size (mkPoly [1; 2] 2) <= Z.abs 3 < Int.INT_MAX)
    by (unfold Int.INT_MAX; simpl; lia).
  split; [exact Hv|]. split; [exact He|].
  destruct (zero_padding_equal junk (mkPoly [1; 2] 2) 3 Hv He)
    as (p' & Hrun & _ & Heq & _).
  exists p'. split; [exact Hrun | exact Heq].
Defined.

(** [Poly(4, -5)]. *)
Lemma Poly_coeff_exp_builds_witness :
  Z.abs (-5) < Int.INT_MAX /\
  exists p, Poly_coeff_exp junk 4 (-5) = Some p /\ size p = 6.
Proof.
  assert (He : Z.abs (-5) < Int.INT_MAX) by (unfold Int.INT_MAX; simpl; lia).
  split; [exact He|].
  destruct (Poly_coeff_exp_builds junk junk junk 4 (-5) He)
    as (p & Hrun & Hsz & _).
  exists p. split; [exact Hrun | exact Hsz].
Defined.

(** A copy of [1 + 2x]. *)
Lemma Poly_copy_equal_witness :
  valid (mkPoly [1; 2] 2) /\
  exists copy, Poly_copy junk (mkPoly [1; 2] 2) = Some copy /\
               operator_eq copy (mkPoly [1; 2] 2) = Some true.
Proof.
  assert (Hv : valid (mkPoly [1; 2] 2)) by (apply valid_sample; simpl; lia).
  split; [exact Hv|].
  destruct (Poly_copy_equal junk (mkPoly [1; 2] 2) Hv)
    as (copy & Hrun & _ & _ & _ & Heq).
  exists copy. split; [exact Hrun | exact Heq].
Defined.

(** [3 + (4x^2)]. *)
Lemma operator_add_sums_witness :
  valid (mkPoly [3] 1) /\ valid (mkPoly [0; 0; 4] 3) /\
  exists s, operator_add junk (mkPoly [3] 1) (mkPoly [0; 0; 4] 3) = Some s /\
            size s = 3.
Proof.
  assert (Hp : valid (mkPoly [3] 1)) by (apply valid_sample; simpl; lia).
  assert (Hq : valid (mkPoly [0; 0; 4] 3)) by (apply valid_sample; simpl; lia).
  split; [exact Hp|]. split; [exact Hq|].
  destruct (operator_add_sums junk (mkPoly [3] 1) (mkPoly [0; 0; 4] 3) Hp Hq)
    as (s & Hrun & Hsz & _).
  exists s. split; [exact Hrun | exact Hsz].
Defined.

(** [3 - (4x^2)]. *)
Lemma operator_sub_subtracts_witness :
  valid (mkPoly [3] 1) /\ valid (mkPoly [0; 0; 4] 3) /\
  exists d, operator_sub junk (mkPoly [3] 1) (mkPoly [0; 0; 4] 3) = Some d /\
            size d = 3.
Proof.
  assert (Hp : valid (mkPoly [3] 1)) by (apply valid_sample; simpl; lia).
  assert (Hq : valid (mkPoly [0; 0; 4] 3)) by (apply valid_sample; simpl; lia).
  split; [exact Hp|]. split; [exact Hq|].
  destruct (operator_sub_subtracts junk (mkPoly [3] 1) (mkPoly [0; 0; 4] 3)
              Hp Hq) as (d & Hrun & Hsz & _).
  exists d. split; [exact Hrun | exact Hsz].
Defined.

(** [a = b] for [a = 7] at address 0 and [b = 1 + 2x] at address 1. *)
Lemma operator_assign_copies_witness :
  (<[0%nat := mkPoly [7] 1]> (<[1%nat := mkPoly [1; 2] 2]> ∅)
     : gmap nat Poly) !! 0%nat = Some (mkPoly [7] 1) /\
  (<[0%nat := mkPoly [7] 1]> (<[1%nat := mkPoly [1; 2] 2]> ∅)
     : gmap nat Poly) !! 1%nat = Some (mkPoly [1; 2] 2) /\
  0%nat ≠ 1%nat /\ valid (mkPoly [1; 2] 2) /\
  exists self' objs',
    operator_assign junk 0 1
      (<[0%nat := mkPoly [7] 1]> (<[1%nat := mkPoly [1; 2] 2]> ∅))
      = Some objs' /\
    objs' !! 0%nat = Some self' /\ size self' = 2.
Proof.
  assert (H0 : (<[0%nat := mkPoly [7] 1]> (<[1%nat := mkPoly [1; 2] 2]> ∅)
                  : gmap nat Poly) !! 0%nat = Some (mkPoly [7] 1))
    by reflexivity.
  assert (H1 : (<[0%nat := mkPoly [7] 1]> (<[1%nat := mkPoly [1; 2] 2]> ∅)
                  : gmap nat Poly) !! 1%nat = Some (mkPoly [1; 2] 2))
    by reflexivity.
  assert (Hne : 0%nat ≠ 1%nat) by discriminate.
  assert (Hv : valid (mkPoly [1; 2] 2)) by (apply valid_sample; simpl; lia).
  split; [exact H0|]. split; [exact H1|]. split; [exact Hne|].
  split; [exact Hv|].
  destruct (operator_assign_copies junk 0 1 _ _ _ H0 H1 Hne Hv)
    as (self' & objs' & Hrun & Hself & Hsz & _).
  exists self', objs'. split; [exact Hrun|]. split; [exact Hself | exact Hsz].
Defined.

(** [3 += 4x^2]. *)
Lemma operator_add_assign_adds_witness :
  valid (mkPoly [3] 1) /\ valid (mkPoly [0; 0; 4] 3) /\
  size (mkPoly [3] 1) <= size (mkPoly [0; 0; 4] 3) /\
  exists r,
    operator_add_assign junk (mkPoly [3] 1) (mkPoly [0; 0; 4] 3) = Some r /\
    size r = 3.
Proof.
  assert (Hp : valid (mkPoly [3] 1)) by (apply valid_sample; simpl; lia).
  assert (Hq : valid (mkPoly [0; 0; 4] 3)) by (apply valid_sample; simpl; lia).
  assert (Hle : size (mkPoly [3] 1) <= size (mkPoly [0; 0; 4] 3))
    by (simpl; lia).
  split; [exact Hp|]. split; [exact Hq|]. split; [exact Hle|].
  destruct (operator_add_assign_adds junk junk (mkPoly [3] 1)
              (mkPoly [0; 0; 4] 3) Hp Hq Hle) as (r & Hrun & Hsz & _).
  exists r. split; [exact Hrun | exact Hsz].
Defined.

(** [3 -= 4x^2]. *)
Lemma operator_sub_assign_subtracts_witness :
  valid (mkPoly [3] 1) /\ valid (mkPoly [0; 0; 4] 3) /\
  size (mkPoly [3] 1) <= size (mkPoly [0; 0; 4] 3) /\
  exists r s,
    operator_sub_assign junk (mkPoly [3] 1) (mkPoly [0; 0; 4] 3) = Some r /\
    operator_sub junk (mkPoly [3] 1) (mkPoly [0; 0; 4] 3) = Some s /\
    operator_eq r s = Some true.
Proof.
  assert (Hp : valid (mkPoly [3] 1)) by (apply valid_sample; simpl; lia).
  assert (Hq : valid (mkPoly [0; 0; 4] 3)) by (apply valid_sample; simpl; lia).
  assert (Hle : size (mkPoly [3] 1) <= size (mkPoly [0; 0; 4] 3))
    by (simpl; lia).
  split; [exact Hp|]. split; [exact Hq|]. split; [exact Hle|].
  destruct (operator_sub_assign_subtracts junk junk (mkPoly [3] 1)
              (mkPoly [0; 0; 4] 3) Hp Hq Hle)
    as (r & s & Hrun & _ & _ & Hsub & Heq).
  exists r, s. split; [exact Hrun|]. split; [exact Hsub | exact Heq].
Defined.

(** [(4x^2) += 3]. *)
Lemma compound_reads_past_argument_witness :
  valid (mkPoly [0; 0; 4] 3) /\ valid (mkPoly [3] 1) /\
  size (mkPoly [3] 1) < size (mkPoly [0; 0; 4] 3) /\
  Z.of_nat (length (coeffList (mkPoly [3] 1))) = size (mkPoly [3] 1) /\
  operator_add_assign junk (mkPoly [0; 0; 4] 3) (mkPoly [3] 1) = None /\
  operator_sub_assign junk (mkPoly [0; 0; 4] 3) (mkPoly [3] 1) = None.
Proof.
  assert (Hp : valid (mkPoly [0; 0; 4] 3)) by (apply valid_sample; simpl; lia).
  assert (Hq : valid (mkPoly [3] 1)) by (apply valid_sample; simpl; lia).
  assert (Hlt : size (mkPoly [3] 1) < size (mkPoly [0; 0; 4] 3))
    by (simpl; lia).
  assert (Hex : Z.of_nat (length (coeffList (mkPoly [3] 1)))
                = size (mkPoly [3] 1)) by reflexivity.
  split; [exact Hp|]. split; [exact Hq|]. split; [exact Hlt|].
  split; [exact Hex|].
  exact (compound_reads_past_argument junk (mkPoly [0; 0; 4] 3)
           (mkPoly [3] 1) Hp Hq Hlt Hex).
Defined.

(** [2x *= 3x] in storage that holds 5 in every cell. *)
Lemma operator_mul_assign_general_witness :
  valid (mkPoly [0; 2] 2) /\ valid (mkPoly [0; 3] 2) /\
  2 + 2 - 1 <= Int.INT_MAX /\
  (forall cell : nat, Int.in_range 5) /\
  exists r,
    operator_mul_assign (fun _ => 5) (mkPoly [0; 2] 2) (mkPoly [0; 3] 2)
      = Some r /\
    size r = 2 /\ getCoeff r 2 = Some 0.
Proof.
  assert (Hp : valid (mkPoly [0; 2] 2)) by (apply valid_sample; simpl; lia).
  assert (Hq : valid (mkPoly [0; 3] 2)) by (apply valid_sample; simpl; lia).
  assert (Hm : 2 + 2 - 1 <= Int.INT_MAX) by (unfold Int.INT_MAX; lia).
  assert (Hf : forall cell : nat, Int.in_range 5)
    by (intros _; apply in_range_sample; lia).
  split; [exact Hp|]. split; [exact Hq|]. split; [exact Hm|].
  split; [exact Hf|].
  destruct (operator_mul_assign_general (fun _ => 5) (mkPoly [0; 2] 2)
              (mkPoly [0; 3] 2) Hp Hq Hm Hf) as (r & Hrun & Hsz & _ & _ & Hget).
  exists r. split; [exact Hrun|]. split; [exact Hsz|].
  apply Hget. simpl. lia.
Defined.

(** [cout << (4 - 3x^2 + x^3)] through another stream. *)
Lemma operator_out_appends_format_witness :
  valid (mkPoly [4; 0; -3; 1] 4) /\
  exists w',
    operator_out (ostream_at 0) (mkPoly [4; 0; -3; 1] 4) (fun _ => "")
      = Some (ostream_at 0, w') /\
    w' cout = "" +:+ format (mkPoly [4; 0; -3; 1] 4).
Proof.
  assert (Hv : valid (mkPoly [4; 0; -3; 1] 4))
    by (apply valid_sample; simpl; lia).
  split; [exact Hv|].
  destruct (operator_out_appends_format (ostream_at 0)
              (mkPoly [4; 0; -3; 1] 4) (fun _ => "") Hv)
    as (w' & Hrun & Htext & _).
  exists w'. split; [exact Hrun | exact Htext].
Defined.

(** [2] and [2 + 0x]. *)
Lemma format_respects_eq_witness :
  valid (mkPoly [2] 1) /\ valid (mkPoly [2; 0] 2) /\
  operator_eq (mkPoly [2] 1) (mkPoly [2; 0] 2) = Some true /\
  format (mkPoly [2] 1) = format (mkPoly [2; 0] 2).
Proof.
  assert (Ha : valid (mkPoly [2] 1)) by (apply valid_sample; simpl; lia).
  assert (Hb : valid (mkPoly [2; 0] 2)) by (apply valid_sample; simpl; lia).
  assert (Heq : operator_eq (mkPoly [2] 1) (mkPoly [2; 0] 2) = Some true)
    by reflexivity.
  split; [exact Ha|]. split; [exact Hb|]. split; [exact Heq|].
  exact (format_respects_eq (mkPoly [2] 1) (mkPoly [2; 0] 2) Ha Hb Heq).
Defined.

(** The stream [5 2 3 0 8 2 0 0] read into [7 + 8x]. *)
Lemma operator_in_last_pair_wins_witness :
  valid (mkPoly [7; 8] 2) /\ Forall term_ok [(5, 2); (3, 0); (8, 2)] /\
  exists result,
    operator_in junk (tokens [(5, 2); (3, 0); (8, 2)] ++ 0 :: 0 :: [])
      (mkPoly [7; 8] 2) = Some ([], result) /\
    getCoeff result 2 = Some (last_coeff [(5, 2); (3, 0); (8, 2)] 2).
Proof.
  assert (Hv : valid (mkPoly [7; 8] 2)) by (apply valid_sample; simpl; lia).
  assert (Ht : Forall term_ok [(5, 2); (3, 0); (8, 2)]).
  { repeat (constructor; [apply term_ok_sample; simpl; lia|]). constructor. }
  split; [exact Hv|]. split; [exact Ht|].
  destruct (operator_in_last_pair_wins junk [(5, 2); (3, 0); (8, 2)] []
              (mkPoly [7; 8] 2) Hv Ht) as (result & Hrun & _ & Hget).
  exists result. split; [exact Hrun | exact (Hget 2)].
Defined.

(** [(1 + 2x) * 3]. *)
Lemma operator_mul_by_constant_witness :
  valid (mkPoly [1; 2] 2) /\
  exists r, operator_mul junk (mkPoly [1; 2] 2) (mkPoly [3] 1) = Some r /\
            size r = 2.
Proof.
  assert (Hv : valid (mkPoly [1; 2] 2)) by (apply valid_sample; simpl; lia).
  split; [exact Hv|].
  destruct (operator_mul_by_constant junk (mkPoly [1; 2] 2) 3 Hv)
    as (r & Hrun & Hsz & _).
  exists r. split; [exact Hrun | exact Hsz].
Defined.

(** [1 + 2x] with the constants 0 and 1. *)
Lemma neutral_constants_witness :
  valid (mkPoly [1; 2] 2) /\ cells_in_range (mkPoly [1; 2] 2) /\
  exists s m,
    operator_add junk (mkPoly [1; 2] 2) (mkPoly [0] 1) = Some s /\
    operator_eq s (mkPoly [1; 2] 2) = Some true /\
    operator_mul junk (mkPoly [1; 2] 2) (mkPoly [1] 1) = Some m /\
    operator_eq m (mkPoly [1; 2] 2) = Some true.
Proof.
  assert (Hv : valid (mkPoly [1; 2] 2)) by (apply valid_sample; simpl; lia).
  assert (Hr : cells_in_range (mkPoly [1; 2] 2)).
  { apply cells_sample. repeat constructor; apply in_range_sample; lia. }
  split; [exact Hv|]. split; [exact Hr|].
  destruct (neutral_constants junk (mkPoly [1; 2] 2) Hv Hr)
    as (s & m & z & Hs & Hes & Hm & Hem & _).
  exists s, m. split; [exact Hs|]. split; [exact Hes|].
  split; [exact Hm | exact Hem].
Defined.

(** [(1 + 2x) - (3 + 4x + 5x^2)]. *)
Lemma operator_sub_as_add_witness :
  valid (mkPoly [1; 2] 2) /\ valid (mkPoly [3; 4; 5] 3) /\
  exists d n s,
    operator_sub junk (mkPoly [1; 2] 2) (mkPoly [3; 4; 5] 3) = Some d /\
    operator_mul junk (mkPoly [3; 4; 5] 3) (mkPoly [-1] 1) = Some n /\
    operator_add junk (mkPoly [1; 2] 2) n = Some s /\
    operator_eq d s = Some true.
Proof.
  assert (Hp : valid (mkPoly [1; 2] 2)) by (apply valid_sample; simpl; lia).
  assert (Hq : valid (mkPoly [3; 4; 5] 3)) by (apply valid_sample; simpl; lia).
  split; [exact Hp|]. split; [exact Hq|].
  exact (operator_sub_as_add junk junk junk (mkPoly [1; 2] 2)
           (mkPoly [3; 4; 5] 3) Hp Hq).
Defined.

(** [(x^2) - (x^2)]. *)
Lemma operator_sub_self_witness :
  valid (mkPoly [0; 0; 1] 3) /\
  exists d, operator_sub junk (mkPoly [0; 0; 1] 3) (mkPoly [0; 0; 1] 3)
              = Some d /\ format d = " 0".
Proof.
  assert (Hv : valid (mkPoly [0; 0; 1] 3)) by (apply valid_sample; simpl; lia).
  split; [exact Hv|].
  destruct (operator_sub_self junk (mkPoly [0; 0; 1] 3) Hv)
    as (d & Hrun & _ & _ & _ & Hfmt).
  exists d. split; [exact Hrun | exact Hfmt].
Defined.

(** [1 + 2x], [3] and [4x^2], added in both groupings. *)
Lemma operator_add_associative_witness :
  valid (mkPoly [1; 2] 2) /\ valid (mkPoly [3] 1) /\
  valid (mkPoly [0; 0; 4] 3) /\
  exists pq qr left right,
    operator_add junk (mkPoly [1; 2] 2) (mkPoly [3] 1) = Some pq /\
    operator_add junk pq (mkPoly [0; 0; 4] 3) = Some left /\
    operator_add junk (mkPoly [3] 1) (mkPoly [0; 0; 4] 3) = Some qr /\
    operator_add junk (mkPoly [1; 2] 2) qr = Some right /\
    operator_eq left right = Some true.
Proof.
  assert (Hp : valid (mkPoly [1; 2] 2)) by (apply valid_sample; simpl; lia).
  assert (Hq : valid (mkPoly [3] 1)) by (apply valid_sample; simpl; lia).
  assert (Hr : valid (mkPoly [0; 0; 4] 3)) by (apply valid_sample; simpl; lia).
  split; [exact Hp|]. split; [exact Hq|]. split; [exact Hr|].
  exact (operator_add_associative junk (mkPoly [1; 2] 2) (mkPoly [3] 1)
           (mkPoly [0; 0; 4] 3) Hp Hq Hr).
Defined.

(** [1 + 2x], [3 + x] and [4x^2], multiplied in both groupings. *)
Lemma operator_mul_associative_witness :
  valid (mkPoly [1; 2] 2) /\ valid (mkPoly [3; 1] 2) /\
  valid (mkPoly [0; 0; 4] 3) /\
  size (mkPoly [1; 2] 2) + size (mkPoly [3; 1] 2)
    + size (mkPoly [0; 0; 4] 3) - 2 <= Int.INT_MAX /\
  exists pq qr left right,
    operator_mul junk (mkPoly [1; 2] 2) (mkPoly [3; 1] 2) = Some pq /\
    operator_mul junk pq (mkPoly [0; 0; 4] 3) = Some left /\
    operator_mul junk (mkPoly [3; 1] 2) (mkPoly [0; 0; 4] 3) = Some qr /\
    operator_mul junk (mkPoly [1; 2] 2) qr = Some right /\
    operator_eq left right = Some true.
Proof.
  assert (Hp : valid (mkPoly [1; 2] 2)) by (apply valid_sample; simpl; lia).
  assert (Hq : valid (mkPoly [3; 1] 2)) by (apply valid_sample; simpl; lia).
  assert (Hr : valid (mkPoly [0; 0; 4] 3)) by (apply valid_sample; simpl; lia).
  assert (Hm : size (mkPoly [1; 2] 2) + size (mkPoly [3; 1] 2)
               + size (mkPoly [0; 0; 4] 3) - 2 <= Int.INT_MAX)
    by (unfold Int.INT_MAX; simpl; lia).
  split; [exact Hp|]. split; [exact Hq|]. split; [exact Hr|].
  split; [exact Hm|].
  exact (operator_mul_associative junk (mkPoly [1; 2] 2) (mkPoly [3; 1] 2)
           (mkPoly [0; 0; 4] 3) Hp Hq Hr Hm).
Defined.

(** [(1 + 2x) * ((3 + x) + 4x^2)]. *)
Lemma operator_mul_distributes_witness :
  valid (mkPoly [1; 2] 2) /\ valid (mkPoly [3; 1] 2) /\
  valid (mkPoly [0; 0; 4] 3) /\
  size (mkPoly [1; 2] 2)
    + Z.max (size (mkPoly [3; 1] 2)) (size (mkPoly [0; 0; 4] 3)) - 1
    <= Int.INT_MAX /\
  exists qr left pq pr right,
    operator_add junk (mkPoly [3; 1] 2) (mkPoly [0; 0; 4] 3) = Some qr /\
    operator_mul junk (mkPoly [1; 2] 2) qr = Some left /\
    operator_mul junk (mkPoly [1; 2] 2) (mkPoly [3; 1] 2) = Some pq /\
    operator_mul junk (mkPoly [1; 2] 2) (mkPoly [0; 0; 4] 3) = Some pr /\
    operator_add junk pq pr = Some right /\
    operator_eq left right = Some true.
Proof.
  assert (Hp : valid (mkPoly [1; 2] 2)) by (apply valid_sample; simpl; lia).
  assert (Hq : valid (mkPoly [3; 1] 2)) by (apply valid_sample; simpl; lia).
  assert (Hr : valid (mkPoly [0; 0; 4] 3)) by (apply valid_sample; simpl; lia).
  assert (Hm : size (mkPoly [1; 2] 2)
               + Z.max (size (mkPoly [3; 1] 2)) (size (mkPoly [0; 0; 4] 3)) - 1
               <= Int.INT_MAX) by (unfold Int.INT_MAX; simpl; lia).
  split; [exact Hp|]. split; [exact Hq|]. split; [exact Hr|].
  split; [exact Hm|].
  exact (operator_mul_distributes junk (mkPoly [1; 2] 2) (mkPoly [3; 1] 2)
           (mkPoly [0; 0; 4] 3) Hp Hq Hr Hm).
Defined.
